(** * The refresh-and-diff pipeline of the clan leaderboard

    A shallow embedding of [App] (the component that owns the polling loop,
    [fetchData] and [stopPolling]) together with the parts of the JavaScript
    platform its code calls: [Map], [Array.prototype.sort], [JSON.parse],
    [String.prototype.toLowerCase] / [includes], interval timers, and the
    React hooks [useState], [useRef], [useCallback] and [useEffect].

    Numbers: a [score] is a JavaScript number.  The model uses exact integers
    ([Z]); rounding of IEEE doubles, [NaN] and infinities are outside it. *)

From Stdlib Require Import String Ascii List ZArith NArith Arith Bool Lia.
From Stdlib Require Import Permutation Sorted DecimalString QArith.
Import ListNotations.

Local Open Scope string_scope.
Local Open Scope Z_scope.

Set Implicit Arguments.

(* ===================================================================== *)
(** ** Strings: the two methods used by the error classifier *)
(* ===================================================================== *)

(** [String.prototype.toLowerCase].  A string is its UTF-8 bytes.  The
    letters A-Z go to a-z.  Two characters outside ASCII have a lower case
    with an ASCII letter in it, and the classifier looks for ASCII texts:
    the Kelvin sign U+212A (bytes E2 84 AA) goes to "k", and the dotted
    capital I U+0130 (bytes C4 B0) goes to "i" followed by the combining
    dot U+0307 (bytes CC 87).  Every other character outside ASCII has a
    lower case outside ASCII; its bytes are left as they are. *)
Definition lower_ascii (c : ascii) : ascii :=
  let n := N_of_ascii c in
  if ((65 <=? n) && (n <=? 90))%N then ascii_of_N (n + 32) else c.

Definition is_kelvin_sign (c1 c2 c3 : ascii) : bool :=
  ((N_of_ascii c1 =? 226) && (N_of_ascii c2 =? 132)
   && (N_of_ascii c3 =? 170))%N.

Definition is_dotted_capital_i (c1 c2 : ascii) : bool :=
  ((N_of_ascii c1 =? 196) && (N_of_ascii c2 =? 176))%N.

Fixpoint toLowerCase (s : string) : string :=
  match s with
  | EmptyString => EmptyString
  | String c1 s1 =>
      match s1 with
      | EmptyString => String (lower_ascii c1) EmptyString
      | String c2 s2 =>
          if is_dotted_capital_i c1 c2 then
            String "i" (String (ascii_of_N 204) (String (ascii_of_N 135)
                                                   (toLowerCase s2)))
          else
            match s2 with
            | EmptyString => String (lower_ascii c1) (toLowerCase s1)
            | String c3 s3 =>
                if is_kelvin_sign c1 c2 c3 then String "k" (toLowerCase s3)
                else String (lower_ascii c1) (toLowerCase s1)
            end
      end
  end.

(** [String.prototype.includes]: [sub] occurs somewhere in [s]. *)
Fixpoint includes (s sub : string) : bool :=
  if String.prefix sub s then true
  else match s with
       | EmptyString => false
       | String _ s' => includes s' sub
       end.

(* ===================================================================== *)
(** ** [Map]: insertion-ordered, keyed by string *)
(* ===================================================================== *)

Section JSMap.
Variable V : Type.

(** Entries in insertion order.  [Array.from(m.values())] observes this
    order, so the model keeps it. *)
Definition JSMap := list (string * V).

Definition Map_empty : JSMap := [].

Fixpoint Map_get (m : JSMap) (k : string) : option V :=
  match m with
  | [] => None
  | (k', v) :: m' => if String.eqb k' k then Some v else Map_get m' k
  end.

Fixpoint Map_has (m : JSMap) (k : string) : bool :=
  match m with
  | [] => false
  | (k', _) :: m' => if String.eqb k' k then true else Map_has m' k
  end.

(** [set] on a present key replaces the value in place; on a new key it
    appends the entry. *)
Fixpoint Map_set (m : JSMap) (k : string) (v : V) : JSMap :=
  match m with
  | [] => [(k, v)]
  | (k', v') :: m' =>
      if String.eqb k' k then (k', v) :: m' else (k', v') :: Map_set m' k v
  end.

Definition Map_values (m : JSMap) : list V := map snd m.
Definition Map_keys (m : JSMap) : list string := map fst m.

(** [new Map(entries)]: the entries are [set] one after the other. *)
Definition Map_new (entries : list (string * V)) : JSMap :=
  fold_left (fun m kv => Map_set m (fst kv) (snd kv)) entries Map_empty.
End JSMap.

Arguments Map_empty {V}.

(* ===================================================================== *)
(** ** [Array.prototype.sort] *)
(* ===================================================================== *)

Section ArraySort.
Variable A : Type.
(** The comparator: negative when its first argument goes first. *)
Variable comparefn : A -> A -> Z.

(** The platform's sort is stable.  For a comparator that is a consistent
    ordering the sorted result is unique (see [stable_sort_unique]), so a
    stable insertion sort computes what any engine does. *)
Fixpoint sort_insert (x : A) (l : list A) : list A :=
  match l with
  | [] => [x]
  | y :: l' =>
      if comparefn x y <=? 0 then x :: y :: l' else y :: sort_insert x l'
  end.

Fixpoint Array_sort (l : list A) : list A :=
  match l with
  | [] => []
  | x :: l' => sort_insert x (Array_sort l')
  end.
End ArraySort.

(* ===================================================================== *)
(** ** The data model ([types.ts]) *)
(* ===================================================================== *)

(** Modelled from the spec: [types.ts], which declares [Clan] and
    [TrackedClan], is not among the sources.  A Record is
    [{ name: string, score: number }], [name] being its identity key; the
    code reads [clan.name] and [clan.score] accordingly. *)
Record Clan : Type := { name : string; score : Z }.

(** Modelled from the spec: a Tracked Record is a Record plus
    [pointChange: number].  The source builds it by spreading the clan:
    [{ ...clan, pointChange }]. *)
Record TrackedClan : Type := { clan_of :> Clan; pointChange : Z }.

(* ===================================================================== *)
(** ** The pure stages of [fetchData] *)
(* ===================================================================== *)

(** De-duplicate on the clan name: the loop over [newClansData] that fills
    [uniqueClansMap]. *)
Definition uniqueClansMap (newClansData : list Clan) : JSMap Clan :=
  fold_left
    (fun m clan =>
       if negb (Map_has m (name clan)) then Map_set m (name clan) clan else m)
    newClansData Map_empty.

Definition uniqueClans (newClansData : list Clan) : list Clan :=
  Map_values (uniqueClansMap newClansData).

(** The point change of every clan against the previous map. *)
Definition trackedClans (previousClansMap : JSMap Clan)
    (uniqueClans : list Clan) : list TrackedClan :=
  map (fun clan =>
         let previousClan := Map_get previousClansMap (name clan) in
         let pointChange :=
           match previousClan with
           | Some previousClan => score clan - score previousClan
           | None => 0
           end in
         {| clan_of := clan; pointChange := pointChange |})
      uniqueClans.

(** [trackedClans.sort((a, b) => b.score - a.score)]. *)
Definition sortedData (trackedClans : list TrackedClan) : list TrackedClan :=
  Array_sort (fun a b : TrackedClan => score b - score a) trackedClans.

(** The map stored for the next cycle:
    [new Map(uniqueClans.map(c => [c.name, c]))]. *)
Definition nextPreviousClansMap (uniqueClans : list Clan) : JSMap Clan :=
  Map_new (map (fun c => (name c, c)) uniqueClans).

(* ===================================================================== *)
(** ** [JSON.parse], on the texts of the response schema *)
(* ===================================================================== *)

(** The extraction call asks for a JSON array of objects with a string
    [name] and a number [score], and the source types the parsed value as
    [Clan[]] without a run-time check.  The model parses exactly that shape
    (white space, member order and repeated members as JSON allows them;
    integer scores); every other text is rejected, which the caller turns
    into the thrown [SyntaxError]. *)
Module JSON.

Inductive token : Type :=
| TLBracket | TRBracket | TLBrace | TRBrace | TComma | TColon
| TString (s : string)
| TNumber (z : Z).

Inductive lex_state : Type :=
| LTop
| LStr (acc : list ascii)            (* inside a string, reversed *)
| LEsc (acc : list ascii)            (* after a backslash *)
| LMinus                             (* after a leading minus *)
| LZero                              (* after a leading zero *)
| LInt (neg : bool) (v : Z).         (* inside an integer *)

Definition is_ws (c : ascii) : bool :=
  let n := N_of_ascii c in
  ((n =? 32) || (n =? 9) || (n =? 10) || (n =? 13))%N.

Definition digit (c : ascii) : option Z :=
  let n := N_of_ascii c in
  if ((48 <=? n) && (n <=? 57))%N then Some (Z.of_N (n - 48)) else None.

(** The single-character escapes; [\uXXXX] is not modelled. *)
Definition unescape (c : ascii) : option ascii :=
  let n := N_of_ascii c in
  if (n =? 34)%N then Some c                      (* quote *)
  else if (n =? 92)%N then Some c                 (* backslash *)
  else if (n =? 47)%N then Some c                 (* slash *)
  else if (n =? 98)%N then Some (ascii_of_N 8)    (* b *)
  else if (n =? 102)%N then Some (ascii_of_N 12)  (* f *)
  else if (n =? 110)%N then Some (ascii_of_N 10)  (* n *)
  else if (n =? 114)%N then Some (ascii_of_N 13)  (* r *)
  else if (n =? 116)%N then Some (ascii_of_N 9)   (* t *)
  else None.

(** One character outside strings and numbers: the token it makes, if
    any, and the state it leads to. *)
Definition top_char (c : ascii) : option (option token * lex_state) :=
  let n := N_of_ascii c in
  if is_ws c then Some (None, LTop)
  else if (n =? 91)%N then Some (Some TLBracket, LTop)
  else if (n =? 93)%N then Some (Some TRBracket, LTop)
  else if (n =? 123)%N then Some (Some TLBrace, LTop)
  else if (n =? 125)%N then Some (Some TRBrace, LTop)
  else if (n =? 44)%N then Some (Some TComma, LTop)
  else if (n =? 58)%N then Some (Some TColon, LTop)
  else if (n =? 34)%N then Some (None, LStr [])
  else if (n =? 45)%N then Some (None, LMinus)
  else match digit c with
       | Some 0 => Some (None, LZero)
       | Some d => Some (None, LInt false d)
       | None => None
       end.

Definition int_value (neg : bool) (v : Z) : Z := if neg then - v else v.

(** A number ends at [c]: fractions and exponents are outside the integer
    model, any other character is read at top level. *)
Definition after_number (z : Z) (c : ascii)
  : option (list token * lex_state) :=
  let n := N_of_ascii c in
  if ((n =? 46) || (n =? 101) || (n =? 69))%N then None
  else match top_char c with
       | Some (Some t, st) => Some ([t; TNumber z], st)
       | Some (None, st) => Some ([TNumber z], st)
       | None => None
       end.

Fixpoint lex (st : lex_state) (cs : list ascii) (out : list token)
  : option (list token) :=
  match cs with
  | [] =>
      match st with
      | LTop => Some (rev out)
      | LZero => Some (rev (TNumber 0 :: out))
      | LInt neg v => Some (rev (TNumber (int_value neg v) :: out))
      | _ => None
      end
  | c :: cs' =>
      match st with
      | LTop =>
          match top_char c with
          | Some (Some t, st') => lex st' cs' (t :: out)
          | Some (None, st') => lex st' cs' out
          | None => None
          end
      | LStr acc =>
          let n := N_of_ascii c in
          if (n =? 34)%N then
            lex LTop cs' (TString (string_of_list_ascii (rev acc)) :: out)
          else if (n =? 92)%N then lex (LEsc acc) cs' out
          else if (n <? 32)%N then None
          else lex (LStr (c :: acc)) cs' out
      | LEsc acc =>
          match unescape c with
          | Some c' => lex (LStr (c' :: acc)) cs' out
          | None => None
          end
      | LMinus =>
          match digit c with
          | Some 0 => lex LZero cs' out
          | Some d => lex (LInt true d) cs' out
          | None => None
          end
      | LZero =>
          match digit c with
          | Some _ => None
          | None =>
              match after_number 0 c with
              | Some (ts, st') => lex st' cs' (ts ++ out)
              | None => None
              end
          end
      | LInt neg v =>
          match digit c with
          | Some d => lex (LInt neg (10 * v + d)) cs' out
          | None =>
              match after_number (int_value neg v) c with
              | Some (ts, st') => lex st' cs' (ts ++ out)
              | None => None
              end
          end
      end
  end.

(** Where the parser is in the array and in the current object; the
    members read so far are the two options. *)
Inductive parse_state : Type :=
| PStart                      (* expects the opening bracket *)
| PFirst                      (* after it: an object or the closing one *)
| PElem                       (* after a comma: an object *)
| PAfterElem                  (* after an object: a comma or the end *)
| PEnd                        (* after the closing bracket *)
| PObjFirst                   (* after an opening brace *)
| PKey (n : option string) (s : option Z)
| PColon (key : string) (n : option string) (s : option Z)
| PValue (key : string) (n : option string) (s : option Z)
| PAfterValue (n : option string) (s : option Z).

(** The object is complete: both required members must be there. *)
Definition close_object (n : option string) (s : option Z) : option Clan :=
  match n, s with
  | Some n, Some s => Some {| name := n; score := s |}
  | _, _ => None
  end.

Fixpoint parse_tokens (st : parse_state) (ts : list token) (out : list Clan)
  : option (list Clan) :=
  match ts with
  | [] => match st with PEnd => Some (rev out) | _ => None end
  | t :: ts' =>
      match st, t with
      | PStart, TLBracket => parse_tokens PFirst ts' out
      | PFirst, TRBracket => parse_tokens PEnd ts' out
      | PFirst, TLBrace => parse_tokens PObjFirst ts' out
      | PElem, TLBrace => parse_tokens PObjFirst ts' out
      | PAfterElem, TComma => parse_tokens PElem ts' out
      | PAfterElem, TRBracket => parse_tokens PEnd ts' out
      | PObjFirst, TString key => parse_tokens (PColon key None None) ts' out
      | PKey n s, TString key => parse_tokens (PColon key n s) ts' out
      | PColon key n s, TColon => parse_tokens (PValue key n s) ts' out
      | PValue key n s, TString v =>
          if String.eqb key "name"
          then parse_tokens (PAfterValue (Some v) s) ts' out
          else None
      | PValue key n s, TNumber z =>
          if String.eqb key "score"
          then parse_tokens (PAfterValue n (Some z)) ts' out
          else None
      | PAfterValue n s, TComma => parse_tokens (PKey n s) ts' out
      | PAfterValue n s, TRBrace =>
          match close_object n s with
          | Some clan => parse_tokens PAfterElem ts' (clan :: out)
          | None => None
          end
      | _, _ => None
      end
  end.

Definition parse (text : string) : option (list Clan) :=
  match lex LTop (list_ascii_of_string text) [] with
  | Some ts => parse_tokens PStart ts []
  | None => None
  end.

End JSON.

(* ===================================================================== *)
(** ** What the outside world answers during one run *)
(* ===================================================================== *)

(** A thrown value: an [Error] with its message, or anything else (the
    handler tests [e instanceof Error]). *)
Inductive thrown : Type :=
| ErrorObj (message : string)
| NotAnError.

(** The [Response] of [fetch]: [text()] may itself reject. *)
Record Response : Type :=
  { ok : bool; status : nat; text : thrown + string }.

(** The answers one run of [fetchData] gets: from [fetch(API_URL)], from
    [ai.models.generateContent] (the request is fixed except for the page
    text, and the run reads only [modelResponse.text]), the message the
    engine puts in the [SyntaxError] of [JSON.parse], and [new Date()]. *)
Record Env : Type :=
  { fetch : thrown + Response;
    generateContent : string -> thrown + option string;
    SyntaxError_message : string -> string;
    Date_now : Z }.

(* ===================================================================== *)
(** ** The component's state, its refs and the browser's timers *)
(* ===================================================================== *)

Definition REFRESH_INTERVAL_MS : Z := 10000.

(** A live interval timer: its handle (an integer greater than zero), its
    period, and its callback.  The only callback ever registered is an
    instance of [fetchData]; instances differ in the [error] they closed
    over, which identifies them. *)
Record Interval : Type :=
  { handle : positive; delay : Z; callback : option string }.

Record World : Type :=
  { (* useState *)
    clans : list TrackedClan;
    loading : bool;
    error : option string;
    lastUpdated : option Z;
    (* useRef *)
    previousClansMap : JSMap Clan;
    intervalRef : option positive;
    (* window *)
    intervals : list Interval;
    next_handle : positive;
    (* the call [fetchData()] made by the effect and not yet returned *)
    pending : option (option string);
    (* the [error] that [fetchData] is memoised on, as of the last effect *)
    memo_error : option string }.

Definition with_clans v w :=
  {| clans := v; loading := loading w; error := error w;
     lastUpdated := lastUpdated w; previousClansMap := previousClansMap w;
     intervalRef := intervalRef w; intervals := intervals w;
     next_handle := next_handle w; pending := pending w;
     memo_error := memo_error w |}.
Definition with_loading v w :=
  {| clans := clans w; loading := v; error := error w;
     lastUpdated := lastUpdated w; previousClansMap := previousClansMap w;
     intervalRef := intervalRef w; intervals := intervals w;
     next_handle := next_handle w; pending := pending w;
     memo_error := memo_error w |}.
Definition with_error v w :=
  {| clans := clans w; loading := loading w; error := v;
     lastUpdated := lastUpdated w; previousClansMap := previousClansMap w;
     intervalRef := intervalRef w; intervals := intervals w;
     next_handle := next_handle w; pending := pending w;
     memo_error := memo_error w |}.
Definition with_lastUpdated v w :=
  {| clans := clans w; loading := loading w; error := error w;
     lastUpdated := v; previousClansMap := previousClansMap w;
     intervalRef := intervalRef w; intervals := intervals w;
     next_handle := next_handle w; pending := pending w;
     memo_error := memo_error w |}.
Definition with_previousClansMap v w :=
  {| clans := clans w; loading := loading w; error := error w;
     lastUpdated := lastUpdated w; previousClansMap := v;
     intervalRef := intervalRef w; intervals := intervals w;
     next_handle := next_handle w; pending := pending w;
     memo_error := memo_error w |}.
Definition with_intervalRef v w :=
  {| clans := clans w; loading := loading w; error := error w;
     lastUpdated := lastUpdated w; previousClansMap := previousClansMap w;
     intervalRef := v; intervals := intervals w;
     next_handle := next_handle w; pending := pending w;
     memo_error := memo_error w |}.
Definition with_intervals v w :=
  {| clans := clans w; loading := loading w; error := error w;
     lastUpdated := lastUpdated w; previousClansMap := previousClansMap w;
     intervalRef := intervalRef w; intervals := v;
     next_handle := next_handle w; pending := pending w;
     memo_error := memo_error w |}.
Definition with_next_handle v w :=
  {| clans := clans w; loading := loading w; error := error w;
     lastUpdated := lastUpdated w; previousClansMap := previousClansMap w;
     intervalRef := intervalRef w; intervals := intervals w;
     next_handle := v; pending := pending w;
     memo_error := memo_error w |}.
Definition with_pending v w :=
  {| clans := clans w; loading := loading w; error := error w;
     lastUpdated := lastUpdated w; previousClansMap := previousClansMap w;
     intervalRef := intervalRef w; intervals := intervals w;
     next_handle := next_handle w; pending := v;
     memo_error := memo_error w |}.
Definition with_memo_error v w :=
  {| clans := clans w; loading := loading w; error := error w;
     lastUpdated := lastUpdated w; previousClansMap := previousClansMap w;
     intervalRef := intervalRef w; intervals := intervals w;
     next_handle := next_handle w; pending := pending w;
     memo_error := v |}.

(* ===================================================================== *)
(** ** Statements that change the world and may throw *)
(* ===================================================================== *)

Definition M (A : Type) : Type := World -> (thrown + A) * World.

Definition ret {A} (a : A) : M A := fun w => (inr a, w).

Definition bind {A B} (c : M A) (k : A -> M B) : M B :=
  fun w => match c w with
           | (inr a, w') => k a w'
           | (inl e, w') => (inl e, w')
           end.

Definition throw {A} (e : thrown) : M A := fun w => (inl e, w).

(** [await p] for a promise that is already settled one way or the other. *)
Definition await {A} (p : thrown + A) : M A := fun w => (p, w).

Definition modify (f : World -> World) : M unit := fun w => (inr tt, f w).
Definition read {A} (f : World -> A) : M A := fun w => (inr (f w), w).

(** [try { body } catch (e) { handler } finally { final }].  What was done
    before a throw stays done. *)
Definition try_catch_finally
    (body : M unit) (handler : thrown -> M unit) (final : M unit) : M unit :=
  fun w =>
    let (r, w1) := match body w with
                   | (inr tt, w') => (inr tt, w')
                   | (inl e, w') => handler e w'
                   end in
    match final w1 with
    | (inr tt, w2) => (r, w2)
    | (inl e, w2) => (inl e, w2)
    end.

Definition exec {A} (c : M A) (w : World) : World := snd (c w).
Definition result {A} (c : M A) (w : World) : thrown + A := fst (c w).

Declare Scope js_scope.
Delimit Scope js_scope with js.
Notation "x <- c ;; k" := (bind c (fun x => k))
  (at level 100, c at next level, right associativity) : js_scope.
Notation "c ;; k" := (bind c (fun _ => k))
  (at level 100, right associativity) : js_scope.
Local Open Scope js_scope.

(** The setters of [useState] and the two refs. *)
Definition setClans v : M unit := modify (with_clans v).
Definition setLoading v : M unit := modify (with_loading v).
Definition setError v : M unit := modify (with_error v).
Definition setLastUpdated v : M unit := modify (with_lastUpdated v).

(** [window.clearInterval]: an unknown handle is ignored. *)
Definition clearInterval (id : positive) : M unit :=
  modify (fun w =>
    with_intervals
      (filter (fun t => negb (Pos.eqb (handle t) id)) (intervals w)) w).

(** [window.setInterval]: registers the callback and returns a fresh
    handle. *)
Definition setInterval (cb : option string) (ms : Z) : M positive :=
  fun w =>
    let id := next_handle w in
    (inr id,
     with_next_handle (Pos.succ id)
       (with_intervals (intervals w ++
          [{| handle := id; delay := ms; callback := cb |}]) w)).

(** JavaScript truthiness of an [error] state: [null] and the empty string
    are falsy. *)
Definition truthy (s : option string) : bool :=
  match s with
  | Some s => negb (String.eqb s "")
  | None => false
  end.

(* ===================================================================== *)
(** ** [stopPolling] and [fetchData] *)
(* ===================================================================== *)

Definition stopPolling : M unit :=
  ref <- read intervalRef ;;
  match ref with
  | Some id =>
      clearInterval id ;;
      modify (with_intervalRef None)
  | None => ret tt
  end.

(** The template literal of the transport error. *)
Definition status_text (n : nat) : string :=
  NilZero.string_of_uint (Nat.to_uint n).

Definition quota_message : string :=
  "Daily Gemini API quota exceeded. Live updates have been paused. Please check back tomorrow.".

Definition api_key_message : string :=
  "Failed to process data: The Gemini API key is missing or invalid. Please ensure it is configured correctly.".

(** The [try] block.  [captured_error] is the [error] the callback closed
    over when [useCallback] made it. *)
Definition fetchData_try (captured_error : option string) (env : Env)
  : M unit :=
  (* 1. the raw text *)
  response <- await (fetch env) ;;
  (if negb (ok response)
   then throw (ErrorObj ("Network response was not ok. Status: "
                           ++ status_text (status response)))
   else ret tt) ;;
  responseText <- await (text response) ;;
  (* 3. the extraction *)
  modelResponse_text <- await (generateContent env responseText) ;;
  jsonString <-
    match modelResponse_text with
    | Some s =>
        if String.eqb s ""
        then throw (ErrorObj "AI model returned an empty response.")
        else ret s
    | None => throw (ErrorObj "AI model returned an empty response.")
    end ;;
  newClansData <-
    match JSON.parse jsonString with
    | Some v => ret v
    | None => throw (ErrorObj (SyntaxError_message env jsonString))
    end ;;
  let uniqueClans := uniqueClans newClansData in
  previous <- read previousClansMap ;;
  let trackedClans := trackedClans previous uniqueClans in
  let sortedData := sortedData trackedClans in
  (if truthy captured_error then setError None else ret tt) ;;
  setClans sortedData ;;
  modify (with_previousClansMap (nextPreviousClansMap uniqueClans)) ;;
  setLastUpdated (Some (Date_now env)).

(** [e instanceof Error ? e.message : 'An unknown error occurred']. *)
Definition message_of (e : thrown) : string :=
  match e with
  | ErrorObj message => message
  | NotAnError => "An unknown error occurred"
  end.

(** The [catch] block. *)
Definition fetchData_catch (e : thrown) : M unit :=
  let errorMessage := message_of e in
  let lowerCaseError := toLowerCase errorMessage in
  if includes lowerCaseError "quota" then
    setError (Some quota_message) ;;
    stopPolling
  else if includes lowerCaseError "api key not valid" then
    setError (Some api_key_message) ;;
    stopPolling
  else
    setError (Some ("Failed to process data with AI: " ++ errorMessage)).

Definition fetchData (captured_error : option string) (env : Env) : M unit :=
  setLoading true ;;
  try_catch_finally
    (fetchData_try captured_error env)
    fetchData_catch
    (setLoading false).

(** One pipeline run fails when its [try] block throws. *)
Definition run_result (captured_error : option string) (env : Env)
    (w : World) : thrown + unit :=
  result (fetchData_try captured_error env) (exec (setLoading true) w).

(* ===================================================================== *)
(** ** The effect that starts the polling, and React's commit *)
(* ===================================================================== *)

(** The body of the [useEffect]: [fetchData()] runs up to its first
    [await] (it sets [loading]) and stays pending; then the interval is
    registered with the same callback. *)
Definition effect_body : M unit :=
  current <- read error ;;
  setLoading true ;;
  modify (with_pending (Some current)) ;;
  id <- setInterval current REFRESH_INTERVAL_MS ;;
  modify (with_intervalRef (Some id)).

(** Its cleanup. *)
Definition effect_cleanup : M unit := stopPolling.

Definition option_string_eqb (a b : option string) : bool :=
  match a, b with
  | Some x, Some y => String.eqb x y
  | None, None => true
  | _, _ => false
  end.

(** After a batch of state updates React renders again.  [fetchData] is
    memoised on [[stopPolling, error]] and the effect depends on
    [[fetchData, stopPolling]]: when [error] differs from the one of the
    last effect, the callback is a new function, so the cleanup and then
    the effect run again. *)
Definition commit (w : World) : World :=
  if option_string_eqb (error w) (memo_error w) then w
  else exec (effect_cleanup ;; effect_body)
            (with_memo_error (error w) w).

(** Before the first render. *)
Definition initial : World :=
  {| clans := []; loading := true; error := None; lastUpdated := None;
     previousClansMap := Map_empty; intervalRef := None;
     intervals := []; next_handle := 1%positive;
     pending := None; memo_error := None |}.

(** The mounted component: the first render has run its effect. *)
Definition mount : World := exec effect_body initial.

(** What can happen next.  Runs do not overlap (one run in flight at a time
    is the standing assumption): an interval fires only when no call is
    pending, and a run goes from its start to its end in one step. *)
Inductive event : Type :=
| PendingCallReturns (env : Env)
| IntervalFires (id : positive) (env : Env).

Definition find_interval (id : positive) (w : World) : option Interval :=
  find (fun t => Pos.eqb (handle t) id) (intervals w).

Definition step (ev : event) (w : World) : option World :=
  match ev with
  | PendingCallReturns env =>
      match pending w with
      | Some c => Some (commit (exec (fetchData c env) (with_pending None w)))
      | None => None
      end
  | IntervalFires id env =>
      match pending w, find_interval id w with
      | None, Some t => Some (commit (exec (fetchData (callback t) env) w))
      | _, _ => None
      end
  end.

Fixpoint steps (evs : list event) (w : World) : option World :=
  match evs with
  | [] => Some w
  | ev :: evs' =>
      match step ev w with
      | Some w' => steps evs' w'
      | None => None
      end
  end.

Inductive reachable : World -> Prop :=
| reachable_mount : reachable mount
| reachable_step w ev w' :
    reachable w -> step ev w = Some w' -> reachable w'.

(** The terminal state of the scheduler: nothing is scheduled and nothing
    is in flight. *)
Definition Stopped (w : World) : Prop :=
  intervals w = [] /\ pending w = None.

(** What the component shows. *)
Inductive View : Type :=
| LoadingSpinner
| ErrorDisplay (message : string)
| Leaderboard (data : list TrackedClan) (isLoading : bool).

Definition render (w : World) : View :=
  let table :=
    Leaderboard (clans w) (loading w && (0 <? length (clans w))%nat) in
  if loading w && (length (clans w) =? 0)%nat then LoadingSpinner
  else match error w with
       | Some message =>
           if truthy (Some message) then ErrorDisplay message else table
       | None => table
       end.

(** A run can take place in [w] with the callback that closed over [c]:
    it is the pending call, or the callback of a live interval while no
    call is pending. *)
Definition may_run (w : World) (c : option string) : Prop :=
  pending w = Some c \/
  (pending w = None /\ exists t, In t (intervals w) /\ callback t = c).

(** What holds of the scheduler in every world the component can be in:
    the effect has run for the current [error]; an [error] is never the
    empty string; a pending call closed over the current [error]; and at
    most one interval is live, the one [intervalRef] names, whose callback
    closed over the current [error] as well. *)
Definition scheduler_invariant (w : World) : Prop :=
  memo_error w = error w /\
  error w <> Some "" /\
  (forall c, pending w = Some c -> c = error w) /\
  ((intervals w = [] /\ intervalRef w = None) \/
   (exists id,
      intervals w =
        [{| handle := id; delay := REFRESH_INTERVAL_MS; callback := error w |}]
      /\ intervalRef w = Some id)).

(* ===================================================================== *)
(** ** The words of the specification, for comparison *)
(* ===================================================================== *)

(** The first record of [data] that carries the identity key [k]. *)
Definition first_with_name (k : string) (data : list Clan) : option Clan :=
  find (fun c => String.eqb (name c) k) data.

(** Keep the first occurrence of every key that is not in [seen]. *)
Fixpoint first_occurrences (seen : list string) (data : list Clan)
  : list Clan :=
  match data with
  | [] => []
  | c :: data' =>
      if existsb (String.eqb (name c)) seen
      then first_occurrences seen data'
      else c :: first_occurrences (name c :: seen) data'
  end.

Definition has_name (k : string) (c : Clan) : bool := String.eqb (name c) k.
Definition has_score (s : Z) (t : TrackedClan) : bool := Z.eqb (score t) s.

(** Non-increasing by score. *)
Definition score_ge (a b : TrackedClan) : Prop := score b <= score a.

(* ===================================================================== *)
(** ** Concrete records, answers and worlds used in the examples *)
(* ===================================================================== *)

Definition A100 : Clan := {| name := "A"; score := 100 |}.
Definition A110 : Clan := {| name := "A"; score := 110 |}.
Definition B90 : Clan := {| name := "B"; score := 90 |}.

Definition previous_AB : JSMap Clan := [("A", A100); ("B", B90)].

Definition quote : string := String (ascii_of_N 34) EmptyString.

(** The text [{"name":"<n>","score":<s>}] for a one-letter name and a
    score written in decimal. *)
Definition object_text (n s : string) : string :=
  "{" ++ quote ++ "name" ++ quote ++ ":" ++ quote ++ n ++ quote ++ ","
      ++ quote ++ "score" ++ quote ++ ":" ++ s ++ "}".

Definition text_A110_B90_A110 : string :=
  "[" ++ object_text "A" "110" ++ "," ++ object_text "B" "90" ++ ","
      ++ object_text "A" "110" ++ "]".

Definition text_A100_B90 : string :=
  "[" ++ object_text "A" "100" ++ "," ++ object_text "B" "90" ++ "]".

Definition page : Response :=
  {| ok := true; status := 200%nat; text := inr "1. A 100" |}.

(** The page is fetched and the extraction returns [out]. *)
Definition env_extracts (out : option string) : Env :=
  {| fetch := inr page;
     generateContent := fun _ => inr out;
     SyntaxError_message := fun _ => "Unexpected end of JSON input";
     Date_now := 1700000000000 |}.

(** The page is fetched and the extraction throws an [Error]. *)
Definition env_extraction_throws (message : string) : Env :=
  {| fetch := inr page;
     generateContent := fun _ => inl (ErrorObj message);
     SyntaxError_message := fun _ => "Unexpected end of JSON input";
     Date_now := 1700000000000 |}.

Definition quota_error_text : string :=
  "You exceeded your current quota, please check your plan and billing details.".

Definition api_key_error_text : string :=
  "API key not valid. Please pass a valid API key.".

Definition both_error_text : string :=
  "Quota check failed: API key not valid.".

(** The mounted component after one good run that published A and B. *)
Definition published_AB : option World :=
  step (PendingCallReturns (env_extracts (Some text_A100_B90))) mount.

Definition world_AB : World :=
  Eval vm_compute in
    match published_AB with Some w => w | None => mount end.


(* ===================================================================== *)
(** ** The table ([components/Leaderboard.tsx]) and the page *)
(* ===================================================================== *)

(** [Number.prototype.toFixed(3)] on an integer: its decimal digits and
    three zeros (for magnitudes below 10^21, where the method changes to
    the exponent notation). *)
Definition toFixed3 (z : Z) : string :=
  NilZero.string_of_int (Z.to_int z) ++ ".000".

(** What [PointChangeDisplay] returns: the grey dash, or the coloured
    trend with the change handed to [TrendIcon] and the label. *)
Inductive PointChangeView : Type :=
| Dash
| Trend (color : string) (icon_change : Z) (label : string).

(** The epsilon of the comparison, [0.0001]. *)
Definition epsilon : Q := 1 # 10000.

Definition PointChangeDisplay (change : Z) : PointChangeView :=
  if negb (Qle_bool epsilon (inject_Z (Z.abs change))) then Dash
  else
    let isGain := 0 <? change in
    let color := if isGain then "text-green-400" else "text-red-400" in
    let sign := if isGain then "+" else "" in
    Trend color change (sign ++ toFixed3 change).

(** One row of the table: its React key, the rank handed to [RankIcon],
    the name, the change and the formatted score. *)
Record Row : Type :=
  { key : string;
    rank : nat;
    row_name : string;
    row_change : PointChangeView;
    row_score : string }.

Definition formatScore (score : Z) : string := toFixed3 score.

(** [data.map((clan, index) => ...)], from [index] on. *)
Fixpoint Leaderboard_rows_from (index : nat) (data : list TrackedClan)
  : list Row :=
  match data with
  | [] => []
  | clan :: data' =>
      {| key := name clan;
         rank := index + 1;
         row_name := name clan;
         row_change := PointChangeDisplay (pointChange clan);
         row_score := formatScore (score clan) |}
      :: Leaderboard_rows_from (S index) data'
  end.

Definition Leaderboard_rows (data : list TrackedClan) : list Row :=
  Leaderboard_rows_from 0 data.

(** The rows the page shows: those of the table when the table is what
    [render] returns, none otherwise. *)
Definition shown_rows (w : World) : list Row :=
  match render w with
  | Leaderboard data _ => Leaderboard_rows data
  | _ => []
  end.

(** The answers of the run an event delivers. *)
Definition event_env (ev : event) : Env :=
  match ev with
  | PendingCallReturns env => env
  | IntervalFires _ env => env
  end.


(** A character is a decimal digit. *)
Definition is_digit (c : ascii) : bool :=
  let n := N_of_ascii c in ((48 <=? n) && (n <=? 57))%N.

Fixpoint all_digits (s : string) : bool :=
  match s with
  | EmptyString => true
  | String c s' => is_digit c && all_digits s'
  end.

(* ===================================================================== *)
(** * Properties *)
(* ===================================================================== *)

(* ===================================================================== *)
(** ** The platform model on small inputs *)
(* ===================================================================== *)

Example toLowerCase_mixed :
  toLowerCase "Quota EXCEEDED (429)" = "quota exceeded (429)".
Proof. reflexivity. Qed.

Example toLowerCase_kelvin_sign :
  toLowerCase
    ("API " ++ String (ascii_of_N 226) (String (ascii_of_N 132)
                 (String (ascii_of_N 170) "ey not valid")))
  = "api key not valid".
Proof. reflexivity. Qed.

Example includes_inside : includes "resource quota exceeded" "quota" = true.
Proof. reflexivity. Qed.

Example includes_not : includes "api key not valid" "quota" = false.
Proof. reflexivity. Qed.

Example JSON_parse_empty_array : JSON.parse "[]" = Some [].
Proof. reflexivity. Qed.

Example JSON_parse_white_space : JSON.parse " [ ]  " = Some [].
Proof. vm_compute. reflexivity. Qed.

Example JSON_parse_records :
  JSON.parse text_A100_B90 = Some [A100; B90].
Proof. vm_compute. reflexivity. Qed.

Example JSON_parse_empty_text : JSON.parse "" = None.
Proof. reflexivity. Qed.

Example JSON_parse_truncated : JSON.parse "[{" = None.
Proof. reflexivity. Qed.

Example JSON_parse_trailing_comma :
  JSON.parse ("[" ++ object_text "A" "1" ++ ",]") = None.
Proof. vm_compute. reflexivity. Qed.

Example JSON_parse_leading_zero :
  JSON.parse ("[" ++ object_text "A" "01" ++ "]") = None.
Proof. vm_compute. reflexivity. Qed.

Example JSON_parse_negative :
  JSON.parse ("[" ++ object_text "A" "-7" ++ "]")
  = Some [{| name := "A"; score := -7 |}].
Proof. vm_compute. reflexivity. Qed.

Example Map_set_keeps_position :
  Map_set [("a", 1); ("b", 2)] "a" 3 = [("a", 3); ("b", 2)].
Proof. reflexivity. Qed.

Example Array_sort_ties :
  Array_sort (fun a b : string * Z => snd b - snd a)
             [("x", 1); ("y", 2); ("z", 1); ("w", 2)]
  = [("y", 2); ("w", 2); ("x", 1); ("z", 1)].
Proof. reflexivity. Qed.

Example status_text_404 : status_text 404 = "404".
Proof. reflexivity. Qed.

(** The mounted component: loading, one interval, the first call pending. *)
Example mount_world :
  mount =
  {| clans := []; loading := true; error := None; lastUpdated := None;
     previousClansMap := Map_empty; intervalRef := Some 1%positive;
     intervals :=
       [{| handle := 1; delay := REFRESH_INTERVAL_MS; callback := None |}];
     next_handle := 2%positive;
     pending := Some None; memo_error := None |}.
Proof. reflexivity. Qed.

Example world_AB_reachable : reachable world_AB.
Proof.
  apply (@reachable_step mount
           (PendingCallReturns (env_extracts (Some text_A100_B90)))).
  - exact reachable_mount.
  - vm_compute. reflexivity.
Qed.

(* ===================================================================== *)
(** ** The map *)
(* ===================================================================== *)

Section MapFacts.
Variable V : Type.
Implicit Types (m : JSMap V) (k : string) (v : V).

Lemma Map_has_existsb m k :
  Map_has m k = existsb (String.eqb k) (Map_keys m).
Proof.
  induction m as [|[k' v'] m IH]; simpl; [reflexivity|].
  rewrite (String.eqb_sym k k'), IH.
  destruct (String.eqb k' k); reflexivity.
Qed.

Lemma Map_get_has m k :
  Map_has m k = match Map_get m k with Some _ => true | None => false end.
Proof.
  induction m as [|[k' v'] m IH]; simpl; [reflexivity|].
  destruct (String.eqb k' k); [reflexivity | exact IH].
Qed.

Lemma Map_set_fresh m k v :
  Map_has m k = false -> Map_set m k v = (m ++ [(k, v)])%list.
Proof.
  induction m as [|[k' v'] m IH]; simpl; [reflexivity|].
  destruct (String.eqb k' k); [discriminate|].
  intros H. rewrite IH by exact H. reflexivity.
Qed.

End MapFacts.

(* ===================================================================== *)
(** ** The de-duplication *)
(* ===================================================================== *)

Lemma first_occurrences_ext data : forall seen seen',
  (forall k, existsb (String.eqb k) seen = existsb (String.eqb k) seen') ->
  first_occurrences seen data = first_occurrences seen' data.
Proof.
  induction data as [|c data IH]; intros seen seen' E; simpl; [reflexivity|].
  rewrite (E (name c)).
  destruct (existsb (String.eqb (name c)) seen').
  - apply IH, E.
  - f_equal. apply IH. intros k. simpl. rewrite E. reflexivity.
Qed.

(** The loop appends to the map, in order, the first occurrence of every
    key the map does not hold yet. *)
Lemma uniqueClansMap_loop data : forall m : JSMap Clan,
  Map_values
    (fold_left
       (fun m clan =>
          if negb (Map_has m (name clan))
          then Map_set m (name clan) clan else m) data m)
  = (Map_values m ++ first_occurrences (Map_keys m) data)%list.
Proof.
  induction data as [|c data IH]; intros m; simpl.
  - rewrite app_nil_r. reflexivity.
  - rewrite IH. rewrite <- Map_has_existsb.
    destruct (Map_has m (name c)) eqn:H; simpl; [reflexivity|].
    rewrite Map_set_fresh by exact H.
    unfold Map_values, Map_keys. rewrite !map_app, <- app_assoc. simpl.
    do 2 f_equal. apply first_occurrences_ext.
    intros k. rewrite existsb_app. simpl.
    rewrite orb_false_r, orb_comm. reflexivity.
Qed.

Lemma uniqueClans_first_occurrences data :
  uniqueClans data = first_occurrences [] data.
Proof.
  unfold uniqueClans, uniqueClansMap. rewrite uniqueClansMap_loop.
  reflexivity.
Qed.

Lemma first_occurrences_filter k data : forall seen,
  filter (has_name k) (first_occurrences seen data) =
  if existsb (String.eqb k) seen then []
  else match first_with_name k data with
       | Some r => [r]
       | None => []
       end.
Proof.
  unfold first_with_name, has_name.
  induction data as [|c data IH]; intros seen; simpl.
  - destruct (existsb _ seen); reflexivity.
  - destruct (existsb (String.eqb (name c)) seen) eqn:Hc.
    + rewrite IH. destruct (existsb (String.eqb k) seen) eqn:Hk;
        [reflexivity|].
      destruct (String.eqb_spec (name c) k) as [E|_]; [|reflexivity].
      rewrite E in Hc. congruence.
    + simpl. rewrite IH. simpl. rewrite (String.eqb_sym k (name c)).
      destruct (String.eqb_spec (name c) k) as [E|_]; simpl.
      * rewrite <- E, Hc. reflexivity.
      * reflexivity.
Qed.

Lemma first_occurrences_fresh data : forall seen c,
  In c (first_occurrences seen data) ->
  existsb (String.eqb (name c)) seen = false.
Proof.
  induction data as [|d data IH]; intros seen c; simpl; [tauto|].
  destruct (existsb (String.eqb (name d)) seen) eqn:Hd.
  - apply IH.
  - intros [<-|H]; [exact Hd|].
    apply IH in H. simpl in H. apply orb_false_elim in H. tauto.
Qed.

Lemma first_occurrences_NoDup data : forall seen,
  NoDup (map name (first_occurrences seen data)).
Proof.
  induction data as [|d data IH]; intros seen; simpl; [constructor|].
  destruct (existsb (String.eqb (name d)) seen); [apply IH|].
  simpl. constructor; [|apply IH].
  intros H. apply in_map_iff in H. destruct H as [c [E H]].
  apply first_occurrences_fresh in H. simpl in H.
  rewrite E, String.eqb_refl in H. discriminate.
Qed.

(** C2.  The de-duplication keeps, for every identity key of the input,
    exactly one record, and that record is the first one of the input with
    that key; keys that are not in the input have no record; the names of
    the output are pairwise distinct; the empty input gives the empty
    output. *)
Theorem uniqueClans_one_per_key_first_wins (newClansData : list Clan) :
  uniqueClans [] = [] /\
  NoDup (map name (uniqueClans newClansData)) /\
  forall k,
    filter (has_name k) (uniqueClans newClansData) =
    match first_with_name k newClansData with
    | Some r => [r]
    | None => []
    end.
Proof.
  split; [reflexivity|]. rewrite uniqueClans_first_occurrences. split.
  - apply first_occurrences_NoDup.
  - intros k. rewrite first_occurrences_filter. reflexivity.
Qed.


(* ===================================================================== *)
(** ** The map kept for the next cycle *)
(* ===================================================================== *)

Lemma Map_new_loop (l : list Clan) : forall m : JSMap Clan,
  NoDup (map name l) ->
  (forall c, In c l -> Map_has m (name c) = false) ->
  fold_left (fun m kv => Map_set m (fst kv) (snd kv))
            (map (fun c => (name c, c)) l) m
  = (m ++ map (fun c => (name c, c)) l)%list.
Proof.
  induction l as [|c l IH]; intros m ND F; simpl.
  - rewrite app_nil_r. reflexivity.
  - inversion ND as [|? ? Hnot ND']; subst.
    rewrite Map_set_fresh by (apply F; left; reflexivity).
    rewrite IH; [rewrite <- app_assoc; reflexivity | exact ND' |].
    intros d Hd. rewrite Map_has_existsb. unfold Map_keys.
    rewrite map_app, existsb_app. simpl.
    rewrite <- (Map_has_existsb m), F by (right; exact Hd). simpl.
    rewrite orb_false_r. destruct (String.eqb_spec (name d) (name c)) as [E|_];
      [|reflexivity].
    exfalso. apply Hnot. rewrite <- E. apply in_map, Hd.
Qed.

(** For records with pairwise distinct names the new map holds exactly
    their entries, in their order. *)
Lemma nextPreviousClansMap_entries (l : list Clan) :
  NoDup (map name l) ->
  nextPreviousClansMap l = map (fun c => (name c, c)) l.
Proof.
  intros ND. unfold nextPreviousClansMap, Map_new.
  rewrite Map_new_loop; [reflexivity | exact ND | reflexivity].
Qed.



(* ===================================================================== *)
(** ** The point changes *)
(* ===================================================================== *)

Lemma trackedClans_records previous current :
  map clan_of (trackedClans previous current) = current.
Proof.
  unfold trackedClans. rewrite map_map. simpl. apply map_id.
Qed.

(** C3.  The tracked records are the current records, one for one and in
    the same order; each carries [pointChange = score - previous score]
    when the previous map holds its key, and [pointChange = 0] when it
    does not. *)
Theorem trackedClans_pointChange
    (previousClansMap : JSMap Clan) (uniqueClans : list Clan) :
  map clan_of (trackedClans previousClansMap uniqueClans) = uniqueClans /\
  Forall
    (fun t : TrackedClan =>
       match Map_get previousClansMap (name t) with
       | Some previousClan =>
           Map_has previousClansMap (name t) = true /\
           pointChange t = score t - score previousClan
       | None =>
           Map_has previousClansMap (name t) = false /\
           pointChange t = 0
       end)
    (trackedClans previousClansMap uniqueClans).
Proof.
  split; [apply trackedClans_records|].
  unfold trackedClans. apply Forall_map, Forall_forall.
  intros c _. simpl. rewrite Map_get_has.
  destruct (Map_get previousClansMap (name c)); split; reflexivity.
Qed.

(* ===================================================================== *)
(** ** The sort *)
(* ===================================================================== *)

Section SortFacts.
Variable A : Type.
Variable key : A -> Z.
Variable comparefn : A -> A -> Z.

(** The comparator orders by [key], larger keys first. *)
Hypothesis comparefn_sign :
  forall x y, comparefn x y <= 0 <-> key y <= key x.

Let ge (a b : A) : Prop := key b <= key a.
Let at_key (s : Z) (a : A) : bool := Z.eqb (key a) s.

Lemma sort_insert_perm x l :
  Permutation (x :: l) (sort_insert comparefn x l).
Proof.
  induction l as [|y l IH]; simpl; [apply Permutation_refl|].
  destruct (comparefn x y <=? 0); [apply Permutation_refl|].
  eapply perm_trans; [apply perm_swap|]. apply perm_skip, IH.
Qed.

Lemma Array_sort_perm l : Permutation l (Array_sort comparefn l).
Proof.
  induction l as [|x l IH]; simpl; [constructor|].
  eapply perm_trans; [apply perm_skip, IH | apply sort_insert_perm].
Qed.

Lemma sort_insert_sorted x l :
  StronglySorted ge l -> StronglySorted ge (sort_insert comparefn x l).
Proof.
  induction l as [|y l IH]; intros S; simpl.
  - repeat constructor.
  - inversion S as [|? ? S' F]; subst.
    destruct (Z.leb_spec (comparefn x y) 0) as [L|G].
    + apply comparefn_sign in L. constructor; [exact S|].
      constructor; [exact L|].
      eapply Forall_impl; [|exact F]. unfold ge. intros a Ha. lia.
    + constructor; [apply IH, S'|].
      eapply Permutation_Forall; [apply sort_insert_perm|].
      constructor; [|exact F].
      unfold ge. destruct (Z.le_gt_cases (key x) (key y)) as [H|H];
        [exact H|].
      exfalso. assert (comparefn x y <= 0) by (apply comparefn_sign; lia).
      lia.
Qed.

Lemma Array_sort_sorted l : StronglySorted ge (Array_sort comparefn l).
Proof.
  induction l as [|x l IH]; simpl; [constructor|].
  apply sort_insert_sorted, IH.
Qed.

(** Inserting moves [x] only past records with another key. *)
Lemma sort_insert_stable s x l :
  filter (at_key s) (sort_insert comparefn x l) = filter (at_key s) (x :: l).
Proof.
  induction l as [|y l IH]; [reflexivity|].
  cbn [sort_insert].
  destruct (Z.leb_spec (comparefn x y) 0) as [L|G]; [reflexivity|].
  assert (N : key x <> key y).
  { intros E. assert (comparefn x y <= 0) by (apply comparefn_sign; lia).
    lia. }
  cbn [filter] in *. rewrite IH. unfold at_key.
  destruct (Z.eqb_spec (key x) s), (Z.eqb_spec (key y) s);
    try reflexivity. congruence.
Qed.

Lemma Array_sort_stable s l :
  filter (at_key s) (Array_sort comparefn l) = filter (at_key s) l.
Proof.
  induction l as [|x l IH]; [reflexivity|].
  cbn [Array_sort]. rewrite sort_insert_stable. cbn [filter].
  rewrite IH. reflexivity.
Qed.

(** Two stable sorted arrangements of the same records are the same list:
    the result of the platform's sort does not depend on its algorithm. *)
Lemma stable_sort_unique : forall l1 l2,
  Permutation l1 l2 ->
  StronglySorted ge l1 -> StronglySorted ge l2 ->
  (forall s, filter (at_key s) l1 = filter (at_key s) l2) ->
  l1 = l2.
Proof.
  induction l1 as [|x l1 IH]; intros l2 P S1 S2 F.
  - apply Permutation_nil in P. congruence.
  - destruct l2 as [|y l2];
      [apply Permutation_sym, Permutation_nil in P; discriminate|].
    inversion S1 as [|? ? S1' F1]; inversion S2 as [|? ? S2' F2]; subst.
    assert (Kxy : key x = key y).
    { assert (Hy : In y (x :: l1))
        by (eapply Permutation_in; [apply Permutation_sym, P | left; reflexivity]).
      assert (Hx : In x (y :: l2))
        by (eapply Permutation_in; [apply P | left; reflexivity]).
      rewrite Forall_forall in F1, F2. unfold ge in F1, F2.
      assert (key y <= key x) by (destruct Hy as [<-|Hy]; [lia | apply F1, Hy]).
      assert (key x <= key y) by (destruct Hx as [<-|Hx]; [lia | apply F2, Hx]).
      lia. }
    assert (E : x = y).
    { specialize (F (key x)). cbn [filter] in F. unfold at_key in F.
      rewrite <- Kxy, Z.eqb_refl in F. congruence. }
    subst y. f_equal. apply IH; [|exact S1'|exact S2'|].
    + eapply Permutation_cons_inv, P.
    + intros s. specialize (F s). cbn [filter] in F.
      destruct (at_key s x); congruence.
Qed.

(** Whatever stable sort the engine runs, it returns [Array_sort]'s list. *)
Lemma Array_sort_determined l l' :
  Permutation l l' -> StronglySorted ge l' ->
  (forall s, filter (at_key s) l' = filter (at_key s) l) ->
  l' = Array_sort comparefn l.
Proof.
  intros P S F. apply stable_sort_unique.
  - eapply perm_trans; [apply Permutation_sym, P | apply Array_sort_perm].
  - exact S.
  - apply Array_sort_sorted.
  - intros s. rewrite F, Array_sort_stable. reflexivity.
Qed.

End SortFacts.

(** C4.  The ranked list holds the same records as its input (a
    permutation, so with the same multiplicities), it is sorted
    non-increasing by score, and records with the same score come out in
    the order they came in. *)
Theorem sortedData_sorted_stable (trackedClans : list TrackedClan) :
  Permutation trackedClans (sortedData trackedClans) /\
  StronglySorted score_ge (sortedData trackedClans) /\
  forall s,
    filter (has_score s) (sortedData trackedClans) =
    filter (has_score s) trackedClans.
Proof.
  unfold sortedData. split; [apply Array_sort_perm|]. split.
  - apply (Array_sort_sorted (fun t : TrackedClan => score t)).
    intros x y. lia.
  - intros s.
    apply (Array_sort_stable (fun t : TrackedClan => score t)).
    intros x y. lia.
Qed.

(* ===================================================================== *)
(** ** One run of [fetchData] *)
(* ===================================================================== *)

Unset Implicit Arguments.

(** The [try] block either throws before it has changed anything, or it
    got records out of the extraction and made its four updates. *)
Lemma fetchData_try_cases c env w :
  match fetchData_try c env w with
  | (inl _, w') => w' = w
  | (inr _, w') =>
      exists response responseText jsonString newClansData,
        fetch env = inr response /\ ok response = true /\
        text response = inr responseText /\
        generateContent env responseText = inr (Some jsonString) /\
        jsonString <> "" /\
        JSON.parse jsonString = Some newClansData /\
        w' = with_lastUpdated (Some (Date_now env))
               (with_previousClansMap
                  (nextPreviousClansMap (uniqueClans newClansData))
                  (with_clans
                     (sortedData
                        (trackedClans (previousClansMap w)
                                      (uniqueClans newClansData)))
                     (if truthy c then with_error None w else w)))
  end.
Proof.
  unfold fetchData_try, bind, await, throw, ret, read, modify, setError,
    setClans, setLastUpdated.
  destruct (fetch env) as [e|response] eqn:Hf; [reflexivity|].
  destruct (ok response) eqn:Hok; simpl; [|reflexivity].
  destruct (text response) as [e|responseText] eqn:Ht; [reflexivity|].
  destruct (generateContent env responseText) as [e|[s|]] eqn:Hg;
    [reflexivity| |reflexivity].
  destruct (String.eqb_spec s "") as [E|N]; [reflexivity|].
  destruct (JSON.parse s) as [data|] eqn:Hp; [|reflexivity].
  destruct (truthy c); simpl;
    exists response, responseText, s, data;
    repeat (split; [first [assumption | reflexivity]|]); reflexivity.
Qed.

Lemma stopPolling_exec w :
  exec stopPolling w =
  match intervalRef w with
  | Some id =>
      with_intervalRef None
        (with_intervals
           (filter (fun t => negb (Pos.eqb (handle t) id)) (intervals w)) w)
  | None => w
  end.
Proof.
  unfold stopPolling, exec, bind, read, clearInterval, modify, ret. simpl.
  destruct (intervalRef w); reflexivity.
Qed.

Lemma fetchData_catch_exec e w :
  exec (fetchData_catch e) w =
  if includes (toLowerCase (message_of e)) "quota"
  then exec stopPolling (with_error (Some quota_message) w)
  else if includes (toLowerCase (message_of e)) "api key not valid"
  then exec stopPolling (with_error (Some api_key_message) w)
  else with_error
         (Some ("Failed to process data with AI: " ++ message_of e)) w.
Proof.
  unfold fetchData_catch.
  destruct (includes (toLowerCase (message_of e)) "quota");
    [reflexivity|].
  destruct (includes (toLowerCase (message_of e)) "api key not valid");
    reflexivity.
Qed.

(** The whole run: the handler when the [try] block throws, the updates of
    the block when it does not; [loading] is reset either way. *)
Lemma fetchData_exec c env w :
  exec (fetchData c env) w =
  match run_result c env w with
  | inl e => with_loading false (exec (fetchData_catch e) (with_loading true w))
  | inr _ => with_loading false (exec (fetchData_try c env) (with_loading true w))
  end.
Proof.
  unfold fetchData, run_result, result, exec, try_catch_finally, bind,
    setLoading, modify. simpl.
  pose proof (fetchData_try_cases c env (with_loading true w)) as H.
  destruct (fetchData_try c env (with_loading true w)) as [[e|[]] w1]; simpl.
  - subst w1. destruct (fetchData_catch e (with_loading true w)) as [[?|[]] ?];
      reflexivity.
  - reflexivity.
Qed.

Lemma stopPolling_keeps w :
  clans (exec stopPolling w) = clans w /\
  previousClansMap (exec stopPolling w) = previousClansMap w /\
  lastUpdated (exec stopPolling w) = lastUpdated w /\
  error (exec stopPolling w) = error w /\
  intervalRef (exec stopPolling w) = None.
Proof.
  rewrite stopPolling_exec.
  destruct (intervalRef w) eqn:E; simpl; auto.
Qed.

Lemma fetchData_catch_keeps e w :
  clans (exec (fetchData_catch e) w) = clans w /\
  previousClansMap (exec (fetchData_catch e) w) = previousClansMap w /\
  lastUpdated (exec (fetchData_catch e) w) = lastUpdated w.
Proof.
  rewrite fetchData_catch_exec.
  repeat match goal with
         | |- context [if ?b then _ else _] => destruct b
         end;
    try (destruct (stopPolling_keeps (with_error (Some quota_message) w))
           as (-> & -> & -> & _));
    try (destruct (stopPolling_keeps (with_error (Some api_key_message) w))
           as (-> & -> & -> & _));
    simpl; auto.
Qed.

Lemma commit_keeps w :
  clans (commit w) = clans w /\
  previousClansMap (commit w) = previousClansMap w /\
  lastUpdated (commit w) = lastUpdated w /\
  error (commit w) = error w.
Proof.
  unfold commit. destruct (option_string_eqb (error w) (memo_error w));
    [auto|].
  unfold effect_cleanup, effect_body, exec, bind.
  pose proof (stopPolling_keeps (with_memo_error (error w) w)) as K.
  unfold exec in K.
  destruct (stopPolling (with_memo_error (error w) w)) as [[?|[]] w1];
    simpl in *; [tauto|].
  destruct K as (-> & -> & -> & -> & _). auto.
Qed.

(** The handler touches neither the list nor the previous map. *)
Lemma failing_run_keeps c env w e :
  run_result c env w = inl e ->
  clans (exec (fetchData c env) w) = clans w /\
  previousClansMap (exec (fetchData c env) w) = previousClansMap w /\
  lastUpdated (exec (fetchData c env) w) = lastUpdated w.
Proof.
  intros F. rewrite fetchData_exec, F. simpl.
  destruct (fetchData_catch_keeps e (with_loading true w)) as (-> & -> & ->).
  simpl. auto.
Qed.

(** C7.  A run whose [try] block throws, whatever was thrown, leaves the
    published list, the previous map and the time of the last update as
    they were, and so does the render that follows it. *)
Theorem failing_run_keeps_snapshot
    (c : option string) (env : Env) (w : World) (e : thrown) :
  run_result c env w = inl e ->
  clans (exec (fetchData c env) w) = clans w /\
  previousClansMap (exec (fetchData c env) w) = previousClansMap w /\
  lastUpdated (exec (fetchData c env) w) = lastUpdated w /\
  clans (commit (exec (fetchData c env) w)) = clans w /\
  previousClansMap (commit (exec (fetchData c env) w)) = previousClansMap w.
Proof.
  intros F.
  destruct (commit_keeps (exec (fetchData c env) w)) as (-> & -> & _).
  destruct (failing_run_keeps c env w e F) as (-> & -> & ->). auto.
Qed.

Lemma failing_run_keeps_snapshot_witness :
  run_result None (env_extraction_throws quota_error_text) world_AB
    = inl (ErrorObj quota_error_text) /\
  clans (exec (fetchData None (env_extraction_throws quota_error_text))
              world_AB) = clans world_AB.
Proof.
  split; [reflexivity|].
  apply (failing_run_keeps_snapshot None
           (env_extraction_throws quota_error_text) world_AB
           (ErrorObj quota_error_text)).
  reflexivity.
Defined.

(** After a failing run an error message is set, and it is what the
    component shows: the list stays in the state, the table gives way to
    the message. *)
Lemma failing_run_shows_error c env w e :
  run_result c env w = inl e ->
  exists message,
    error (exec (fetchData c env) w) = Some message /\
    render (exec (fetchData c env) w) = ErrorDisplay message.
Proof.
  intros R. rewrite fetchData_exec, R, fetchData_catch_exec.
  destruct (includes (toLowerCase (message_of e)) "quota");
    [|destruct (includes (toLowerCase (message_of e)) "api key not valid")];
    rewrite ?stopPolling_exec; simpl; eexists;
    (split; [destruct (intervalRef w); reflexivity|]);
    unfold render; destruct (intervalRef w); reflexivity.
Qed.

(* ===================================================================== *)
(** ** Empty answers of the extraction *)
(* ===================================================================== *)

Lemma empty_answer_throws c env w response responseText :
  fetch env = inr response -> ok response = true ->
  text response = inr responseText ->
  generateContent env responseText = inr None \/
  generateContent env responseText = inr (Some "") ->
  run_result c env w = inl (ErrorObj "AI model returned an empty response.").
Proof.
  intros Hf Hok Ht Hg.
  unfold run_result, result, exec, fetchData_try, bind, await, throw, ret.
  simpl. rewrite Hf, Hok. simpl. rewrite Ht.
  destruct Hg as [-> | ->]; reflexivity.
Qed.

Lemma empty_list_answer_succeeds c env w response responseText :
  fetch env = inr response -> ok response = true ->
  text response = inr responseText ->
  generateContent env responseText = inr (Some "[]") ->
  fetchData_try c env w =
  (inr tt,
   with_lastUpdated (Some (Date_now env))
     (with_previousClansMap Map_empty
        (with_clans [] (if truthy c then with_error None w else w)))).
Proof.
  intros Hf Hok Ht Hg.
  unfold fetchData_try, bind, await, throw, ret, read, modify, setError,
    setClans, setLastUpdated.
  rewrite Hf, Hok. simpl. rewrite Ht, Hg. simpl.
  destruct (truthy c); reflexivity.
Qed.

(** C1, as the code has it.  When the page was fetched and the extraction
    returns no text or the empty text, the run fails: nothing is published,
    the published list and the previous map are the ones from before, and
    the generic error message is set.  The text of an empty list is no such
    failure: the run succeeds, publishes the empty list, empties the
    previous map, and sets no error message. *)
Theorem empty_output_fails_but_empty_list_is_published
    (c : option string) (env : Env) (w : World)
    (response : Response) (responseText : string) :
  fetch env = inr response -> ok response = true ->
  text response = inr responseText ->
  (generateContent env responseText = inr None \/
   generateContent env responseText = inr (Some "") ->
   run_result c env w = inl (ErrorObj "AI model returned an empty response.")
   /\ clans (exec (fetchData c env) w) = clans w
   /\ previousClansMap (exec (fetchData c env) w) = previousClansMap w
   /\ error (exec (fetchData c env) w) =
      Some "Failed to process data with AI: AI model returned an empty response.")
  /\
  (generateContent env responseText = inr (Some "[]") ->
   run_result c env w = inr tt
   /\ clans (exec (fetchData c env) w) = []
   /\ previousClansMap (exec (fetchData c env) w) = Map_empty
   /\ error (exec (fetchData c env) w) = (if truthy c then None else error w)
   /\ lastUpdated (exec (fetchData c env) w) = Some (Date_now env)).
Proof.
  intros Hf Hok Ht. split; intros Hg.
  - pose proof (empty_answer_throws c env w _ _ Hf Hok Ht Hg) as R.
    split; [exact R|].
    destruct (failing_run_keeps c env w _ R) as (-> & -> & _).
    do 2 (split; [reflexivity|]).
    rewrite fetchData_exec, R, fetchData_catch_exec. reflexivity.
  - assert (R : run_result c env w = inr tt).
    { unfold run_result, result, exec.
      rewrite (empty_list_answer_succeeds c env _ _ _ Hf Hok Ht Hg). reflexivity. }
    split; [exact R|].
    rewrite fetchData_exec, R. unfold exec.
    rewrite (empty_list_answer_succeeds c env _ _ _ Hf Hok Ht Hg). simpl.
    destruct (truthy c); simpl; auto.
Qed.

Lemma empty_output_fails_witness :
  run_result None (env_extracts None) world_AB
    = inl (ErrorObj "AI model returned an empty response.")
  /\ clans (exec (fetchData None (env_extracts None)) world_AB)
     = clans world_AB
  /\ previousClansMap (exec (fetchData None (env_extracts None)) world_AB)
     = previousClansMap world_AB
  /\ error (exec (fetchData None (env_extracts None)) world_AB) =
     Some "Failed to process data with AI: AI model returned an empty response.".
Proof.
  apply (proj1 (empty_output_fails_but_empty_list_is_published
                  None (env_extracts None) world_AB page "1. A 100"
                  eq_refl eq_refl eq_refl)).
  left. reflexivity.
Defined.

(** C1, as it is written, fails at the text of an empty list.  The
    component shows A and B; the extraction then answers with that text.
    The run does not fail, no error message is set, and the published list
    is replaced by the empty one. *)
Lemma empty_list_output_is_not_a_failure :
  let env := env_extracts (Some "[]") in
  let w' := exec (fetchData (error world_AB) env) world_AB in
  JSON.parse "[]" = Some [] /\
  run_result (error world_AB) env world_AB = inr tt /\
  error w' = None /\
  clans world_AB <> [] /\
  clans w' = [] /\
  previousClansMap w' = Map_empty.
Proof.
  vm_compute. repeat split. discriminate.
Qed.

(* ===================================================================== *)
(** ** The scheduler's invariant *)
(* ===================================================================== *)

Lemma option_string_eqb_eq a b : option_string_eqb a b = true <-> a = b.
Proof.
  destruct a as [x|], b as [y|]; simpl; split; intros H;
    try discriminate; try reflexivity.
  - apply String.eqb_eq in H. congruence.
  - injection H as ->. apply String.eqb_refl.
Qed.

Lemma successful_run_exec c env w :
  run_result c env w = inr tt ->
  exists response responseText jsonString newClansData,
    fetch env = inr response /\ ok response = true /\
    text response = inr responseText /\
    generateContent env responseText = inr (Some jsonString) /\
    jsonString <> "" /\
    JSON.parse jsonString = Some newClansData /\
    exec (fetchData c env) w =
    with_loading false
      (with_lastUpdated (Some (Date_now env))
         (with_previousClansMap
            (nextPreviousClansMap (uniqueClans newClansData))
            (with_clans
               (sortedData
                  (trackedClans (previousClansMap w)
                                (uniqueClans newClansData)))
               (if truthy c then with_error None (with_loading true w)
                else with_loading true w)))).
Proof.
  intros R. rewrite fetchData_exec, R.
  unfold run_result, result, exec, setLoading, modify in *. simpl in R.
  pose proof (fetchData_try_cases c env (with_loading true w)) as H.
  destruct (fetchData_try c env (with_loading true w)) as [[e|[]] w1];
    simpl in *; [discriminate|].
  destruct H as (response & responseText & s & data & H).
  exists response, responseText, s, data.
  decompose [and] H. subst w1. repeat split; assumption.
Qed.


Lemma scheduler_invariant_mount : scheduler_invariant mount.
Proof.
  unfold scheduler_invariant. simpl. repeat split.
  - discriminate.
  - intros c H. congruence.
  - right. exists 1%positive. split; reflexivity.
Qed.

(** The render after a run keeps the invariant, whether or not the
    effect runs again: the run left the interval of the last effect alone
    or cleared it. *)
Lemma scheduler_invariant_commit (w w1 : World) :
  pending w1 = None -> memo_error w1 = error w -> error w1 <> Some "" ->
  ((intervals w1 = [] /\ intervalRef w1 = None) \/
   (exists id,
      intervals w1 =
        [{| handle := id; delay := REFRESH_INTERVAL_MS;
            callback := error w |}]
      /\ intervalRef w1 = Some id)) ->
  scheduler_invariant (commit w1).
Proof.
  intros P1 M1 E1 I1. unfold commit.
  destruct (option_string_eqb (error w1) (memo_error w1)) eqn:Q.
  - apply option_string_eqb_eq in Q. unfold scheduler_invariant.
    repeat split; [congruence | exact E1 | intros c H; congruence |].
    destruct I1 as [I1 | (id & I1 & R1)]; [left; exact I1|].
    right. exists id. split; [|exact R1]. rewrite I1. congruence.
  - unfold effect_cleanup, effect_body, exec, bind, read, setLoading,
      setInterval, modify.
    pose proof (stopPolling_exec (with_memo_error (error w1) w1)) as S.
    unfold exec in S.
    destruct (stopPolling (with_memo_error (error w1) w1)) as [[?|[]] w2];
      simpl in S; subst w2; unfold scheduler_invariant;
      destruct I1 as [[I1 R1] | (id & I1 & R1)]; simpl;
      rewrite ?R1; simpl; rewrite ?I1; simpl; rewrite ?Pos.eqb_refl;
      simpl; repeat split; auto; try congruence;
      try (right; eexists; split; reflexivity);
      try (left; split; reflexivity).
Qed.

(** A run started by a callback of the current render, from a world in
    which nothing is pending, keeps the invariant through the render that
    follows. *)
Lemma scheduler_invariant_run env w :
  scheduler_invariant w -> pending w = None ->
  scheduler_invariant (commit (exec (fetchData (error w) env) w)).
Proof.
  intros (Hm & He & _ & Hi) Hp.
  rewrite fetchData_exec.
  destruct (run_result (error w) env w) as [e|[]] eqn:R.
  - rewrite fetchData_catch_exec.
    destruct (includes (toLowerCase (message_of e)) "quota");
      [|destruct (includes (toLowerCase (message_of e)) "api key not valid")];
      rewrite ?stopPolling_exec; simpl.
    + apply (scheduler_invariant_commit w).
      * destruct (intervalRef w); exact Hp.
      * destruct (intervalRef w); exact Hm.
      * destruct (intervalRef w); discriminate.
      * left. destruct Hi as [[I R0] | (id & I & R0)]; rewrite R0; simpl;
          rewrite ?I; simpl; rewrite ?Pos.eqb_refl; auto.
    + apply (scheduler_invariant_commit w).
      * destruct (intervalRef w); exact Hp.
      * destruct (intervalRef w); exact Hm.
      * destruct (intervalRef w); discriminate.
      * left. destruct Hi as [[I R0] | (id & I & R0)]; rewrite R0; simpl;
          rewrite ?I; simpl; rewrite ?Pos.eqb_refl; auto.
    + apply (scheduler_invariant_commit w); simpl;
        [exact Hp | exact Hm | discriminate | exact Hi].
  - destruct (successful_run_exec _ _ _ R)
      as (response & responseText & s & data & _ & _ & _ & _ & _ & _ & X).
    rewrite fetchData_exec, R in X. rewrite X. clear X.
    destruct (truthy (error w)) eqn:T; simpl;
      apply (scheduler_invariant_commit w); simpl;
      first [exact Hp | exact Hm | exact He | exact Hi | discriminate].
Qed.

Lemma scheduler_invariant_step ev w w' :
  scheduler_invariant w -> step ev w = Some w' -> scheduler_invariant w'.
Proof.
  intros Inv. destruct ev as [env | id env]; simpl.
  - destruct (pending w) as [c|] eqn:P; [|discriminate].
    intros [= <-].
    assert (c = error w) as -> by (apply Inv, P).
    apply (scheduler_invariant_run env (with_pending None w));
      [|reflexivity].
    destruct Inv as (Hm & He & _ & Hi).
    repeat split; simpl; auto. discriminate.
  - destruct (pending w) eqn:P; [discriminate|].
    unfold find_interval.
    destruct (find _ (intervals w)) as [t|] eqn:F; [|discriminate].
    intros [= <-].
    assert (callback t = error w) as ->.
    { destruct Inv as (_ & _ & _ & [[I _] | (id' & I & _)]);
        rewrite I in F; simpl in F; [discriminate|].
      destruct (Pos.eqb id' id); [|discriminate].
      injection F as <-. reflexivity. }
    apply scheduler_invariant_run; assumption.
Qed.

Lemma reachable_invariant w : reachable w -> scheduler_invariant w.
Proof.
  induction 1 as [|w ev w' _ IH St].
  - exact scheduler_invariant_mount.
  - exact (scheduler_invariant_step ev w w' IH St).
Qed.

(** In a reachable world every callback that can run closed over the
    current [error]. *)
Lemma reachable_callback_current w c :
  reachable w -> may_run w c -> c = error w.
Proof.
  intros Rw M. destruct (reachable_invariant w Rw) as (_ & _ & Hp & Hi).
  destruct M as [P | (_ & t & Ht & <-)]; [apply Hp, P|].
  destruct Hi as [[I _] | (id & I & _)]; rewrite I in Ht; simpl in Ht;
    [contradiction|].
  destruct Ht as [<-|[]]. reflexivity.
Qed.

(* ===================================================================== *)
(** ** A successful run *)
(* ===================================================================== *)







(* ===================================================================== *)
(** ** Failures that stop the polling *)
(* ===================================================================== *)

(** What the handler does on a message with "quota" in it, in a world
    that satisfies the invariant: it sets the quota message, and
    [stopPolling] clears the one live interval and the ref. *)
Lemma quota_failure_run w c env e :
  scheduler_invariant w ->
  run_result c env w = inl e ->
  includes (toLowerCase (message_of e)) "quota" = true ->
  exec (fetchData c env) w =
    with_loading false
      (exec stopPolling (with_error (Some quota_message) (with_loading true w)))
  /\
  error (exec (fetchData c env) w) = Some quota_message /\
  intervalRef (exec (fetchData c env) w) = None /\
  intervals (exec (fetchData c env) w) = [].
Proof.
  intros (_ & _ & _ & Hi) R Q.
  rewrite fetchData_exec, R, fetchData_catch_exec, Q.
  split; [reflexivity|]. rewrite stopPolling_exec. simpl.
  destruct Hi as [[I R0] | (id & I & R0)]; rewrite R0; simpl;
    rewrite ?I; simpl; rewrite ?Pos.eqb_refl; auto.
Qed.

(** The same for a message with "api key not valid" and without "quota". *)
Lemma api_key_failure_run w c env e :
  scheduler_invariant w ->
  run_result c env w = inl e ->
  includes (toLowerCase (message_of e)) "quota" = false ->
  includes (toLowerCase (message_of e)) "api key not valid" = true ->
  exec (fetchData c env) w =
    with_loading false
      (exec stopPolling
         (with_error (Some api_key_message) (with_loading true w)))
  /\
  error (exec (fetchData c env) w) = Some api_key_message /\
  intervalRef (exec (fetchData c env) w) = None /\
  intervals (exec (fetchData c env) w) = [].
Proof.
  intros (_ & _ & _ & Hi) R Q K.
  rewrite fetchData_exec, R, fetchData_catch_exec, Q, K.
  split; [reflexivity|]. rewrite stopPolling_exec. simpl.
  destruct Hi as [[I R0] | (id & I & R0)]; rewrite R0; simpl;
    rewrite ?I; simpl; rewrite ?Pos.eqb_refl; auto.
Qed.

(** The render after a stopping failure.  When the message set is the one
    that was already shown, nothing depends on a new [fetchData] and the
    scheduler is stopped.  When it is a new message, [fetchData] is a new
    function, the effect runs again, calls it and registers a new
    interval. *)
Lemma stopping_failure_render w msg :
  scheduler_invariant w -> pending w = None ->
  let w' :=
    commit (with_loading false
              (exec stopPolling
                 (with_error (Some msg) (with_loading true w)))) in
  error w' = Some msg /\
  (error w = Some msg -> Stopped w') /\
  (error w <> Some msg ->
   pending w' = Some (Some msg) /\
   intervals w' =
     [{| handle := next_handle w; delay := REFRESH_INTERVAL_MS;
         callback := Some msg |}]).
Proof.
  intros (Hm & _ & _ & Hi) Hp w'. subst w'.
  split; [rewrite (proj2 (proj2 (proj2 (commit_keeps _))));
          rewrite stopPolling_exec; simpl;
          destruct (intervalRef w); reflexivity|].
  rewrite stopPolling_exec. simpl.
  assert (X : with_loading false
                match intervalRef w with
                | Some id =>
                    with_intervalRef None
                      (with_intervals
                         (filter (fun t => negb (Pos.eqb (handle t) id))
                                 (intervals w))
                         (with_error (Some msg) (with_loading true w)))
                | None => with_error (Some msg) (with_loading true w)
                end =
              with_loading false
                (with_intervalRef None
                   (with_intervals []
                      (with_error (Some msg) (with_loading true w))))).
  { destruct Hi as [[I R0] | (id & I & R0)]; rewrite R0; simpl.
    - unfold with_intervalRef, with_intervals, with_error, with_loading.
      simpl. rewrite I, R0. reflexivity.
    - rewrite I. simpl. rewrite Pos.eqb_refl. reflexivity. }
  rewrite X. clear X. unfold commit. simpl. rewrite Hm.
  destruct (error w) as [y|] eqn:E.
  - destruct (String.eqb_spec msg y) as [->|N].
    + split; [intros _; split; [reflexivity | exact Hp] | congruence].
    + split; [intros [= ->]; contradiction | intros _; split; reflexivity].
  - split; [discriminate | intros _; split; reflexivity].
Qed.

(** A quota failure and the render after it, for a run of the current
    callback: the scheduler ends stopped exactly when the quota message was
    already the one shown. *)
Lemma quota_failure_then_render w env e :
  scheduler_invariant w -> pending w = None ->
  run_result (error w) env w = inl e ->
  includes (toLowerCase (message_of e)) "quota" = true ->
  error (commit (exec (fetchData (error w) env) w)) = Some quota_message /\
  (error w = Some quota_message ->
   Stopped (commit (exec (fetchData (error w) env) w))) /\
  (error w <> Some quota_message ->
   ~ Stopped (commit (exec (fetchData (error w) env) w))).
Proof.
  intros Inv Hp R Q.
  destruct (quota_failure_run w (error w) env e Inv R Q) as (-> & _).
  destruct (stopping_failure_render w quota_message Inv Hp) as (E & S & N).
  split; [exact E|]. split; [exact S|].
  intros D [_ P]. destruct (N D) as [P' _]. congruence.
Qed.

(** Nothing happens in a stopped world. *)
Lemma Stopped_terminal w ev : Stopped w -> step ev w = None.
Proof.
  intros [I P]. destruct ev as [env | id env]; simpl; rewrite P;
    [reflexivity|].
  unfold find_interval. rewrite I. reflexivity.
Qed.

(** The test for "quota" comes first: when the message of the failure
    contains both "quota" and "api key not valid" without regard to case,
    the handler sets the quota message, not the one for the API key, and
    its [stopPolling] leaves the ref reset and no interval live.  This is
    the world at the end of the run, before the render that follows. *)
Lemma quota_branch_comes_first
    (w : World) (c : option string) (env : Env) (e : thrown) :
  reachable w ->
  run_result c env w = inl e ->
  includes (toLowerCase (message_of e)) "quota" = true ->
  includes (toLowerCase (message_of e)) "api key not valid" = true ->
  error (exec (fetchData c env) w) = Some quota_message /\
  error (exec (fetchData c env) w) <> Some api_key_message /\
  intervalRef (exec (fetchData c env) w) = None /\
  intervals (exec (fetchData c env) w) = [].
Proof.
  intros Rw R Q _.
  destruct (quota_failure_run w c env e (reachable_invariant w Rw) R Q)
    as (_ & -> & -> & ->).
  repeat split. discriminate.
Qed.

(* ===================================================================== *)
(** ** The polling after a stopping failure *)
(* ===================================================================== *)

(** C5, at the first run after mounting.  The extraction throws an error
    whose message contains "quota".  The quota message is set and
    [stopPolling] clears the interval, but [error] has changed, so the
    effect runs again: a new call of [fetchData] is in flight and a new
    interval is live.  The scheduler is not stopped, and the next run goes
    through and publishes. *)
Theorem quota_failure_restarts_polling :
  includes (toLowerCase quota_error_text) "quota" = true /\
  exists w',
    step (PendingCallReturns (env_extraction_throws quota_error_text)) mount
      = Some w' /\
    error w' = Some quota_message /\
    pending w' = Some (Some quota_message) /\
    intervals w' =
      [{| handle := 2; delay := REFRESH_INTERVAL_MS;
          callback := Some quota_message |}] /\
    ~ Stopped w' /\
    exists w'',
      step (PendingCallReturns (env_extracts (Some text_A100_B90))) w'
        = Some w'' /\
      map clan_of (clans w'') = [A100; B90].
Proof.
  split; [vm_compute; reflexivity|].
  eexists. split; [vm_compute; reflexivity|].
  do 3 (split; [vm_compute; reflexivity|]). split.
  - intros [I _]. vm_compute in I. discriminate I.
  - eexists. split; vm_compute; reflexivity.
Qed.

(** C6, at the first run after mounting.  The extraction throws the error
    of an invalid API key.  The message for the key is set and the interval
    cleared, and again the effect starts a new call and a new interval. *)
Theorem api_key_failure_restarts_polling :
  includes (toLowerCase api_key_error_text) "quota" = false /\
  includes (toLowerCase api_key_error_text) "api key not valid" = true /\
  exists w',
    step (PendingCallReturns (env_extraction_throws api_key_error_text)) mount
      = Some w' /\
    error w' = Some api_key_message /\
    pending w' = Some (Some api_key_message) /\
    intervals w' =
      [{| handle := 2; delay := REFRESH_INTERVAL_MS;
          callback := Some api_key_message |}] /\
    ~ Stopped w' /\
    exists w'',
      step (PendingCallReturns (env_extracts (Some text_A100_B90))) w'
        = Some w'' /\
      map clan_of (clans w'') = [A100; B90].
Proof.
  split; [vm_compute; reflexivity|]. split; [vm_compute; reflexivity|].
  eexists. split; [vm_compute; reflexivity|].
  do 3 (split; [vm_compute; reflexivity|]). split.
  - intros [I _]. vm_compute in I. discriminate I.
  - eexists. split; vm_compute; reflexivity.
Qed.

(** C10, at the first run after mounting.  The extraction throws an error
    whose message contains both "quota" and "api key not valid".  The
    precedence is as claimed: the quota message is set, not the one for
    the API key, and [stopPolling] has cleared interval 1.  But the polling
    is not stopped: [error] has changed, so the effect has run again, a
    new call of [fetchData] is pending and interval 2 is live, and the next
    answer is taken and published. *)
Theorem quota_precedence_but_polling_restarts :
  includes (toLowerCase both_error_text) "quota" = true /\
  includes (toLowerCase both_error_text) "api key not valid" = true /\
  exists w',
    step (PendingCallReturns (env_extraction_throws both_error_text)) mount
      = Some w' /\
    error w' = Some quota_message /\
    error w' <> Some api_key_message /\
    find_interval 1 w' = None /\
    pending w' = Some (Some quota_message) /\
    intervals w' =
      [{| handle := 2; delay := REFRESH_INTERVAL_MS;
          callback := Some quota_message |}] /\
    ~ Stopped w' /\
    exists w'',
      step (PendingCallReturns (env_extracts (Some text_A100_B90))) w'
        = Some w'' /\
      map clan_of (clans w'') = [A100; B90].
Proof.
  split; [vm_compute; reflexivity|]. split; [vm_compute; reflexivity|].
  eexists. split; [vm_compute; reflexivity|].
  split; [vm_compute; reflexivity|].
  split; [vm_compute; discriminate|].
  do 3 (split; [vm_compute; reflexivity|]). split.
  - intros [I _]. vm_compute in I. discriminate I.
  - eexists. split; vm_compute; reflexivity.
Qed.

(** The polling does stop when the same stopping failure comes a second
    time in a row: the message does not change, so no effect runs. *)
Lemma second_quota_failure_stops :
  exists w',
    steps [PendingCallReturns (env_extraction_throws quota_error_text);
           PendingCallReturns (env_extraction_throws quota_error_text)]
          mount = Some w' /\
    error w' = Some quota_message /\ Stopped w'.
Proof.
  eexists. split; [vm_compute; reflexivity|].
  split; [vm_compute; reflexivity|].
  split; vm_compute; reflexivity.
Qed.

(* ===================================================================== *)
(** ** The scenario with a repeated record *)
(* ===================================================================== *)

(** C9.  With the previous map {A: 100, B: 90} and the extraction
    [A 110; B 90; A 110], the de-duplicated list is [A 110; B 90], the
    tracked list is [A 110 (+10); B 90 (0)], and the ranked list is the
    tracked list as it is.  The same lists come out of a whole run on the
    JSON text of that extraction. *)
Theorem scenario_repeated_record :
  uniqueClans [A110; B90; A110] = [A110; B90] /\
  trackedClans previous_AB [A110; B90] =
    [{| clan_of := A110; pointChange := 10 |};
     {| clan_of := B90; pointChange := 0 |}] /\
  sortedData (trackedClans previous_AB [A110; B90]) =
    trackedClans previous_AB [A110; B90] /\
  previousClansMap world_AB = previous_AB /\
  JSON.parse text_A110_B90_A110 = Some [A110; B90; A110] /\
  clans (exec (fetchData None (env_extracts (Some text_A110_B90_A110)))
              world_AB) =
    [{| clan_of := A110; pointChange := 10 |};
     {| clan_of := B90; pointChange := 0 |}].
Proof.
  repeat split; vm_compute; reflexivity.
Qed.

(* ===================================================================== *)
(** * Further properties of the code *)
(* ===================================================================== *)

(* ===================================================================== *)
(** ** The de-duplication, again *)
(* ===================================================================== *)

Lemma first_occurrences_distinct data : forall seen,
  NoDup (map name data) ->
  (forall c, In c data -> existsb (String.eqb (name c)) seen = false) ->
  first_occurrences seen data = data.
Proof.
  induction data as [|d data IH]; intros seen ND F; simpl; [reflexivity|].
  rewrite (F d (or_introl eq_refl)). f_equal.
  inversion ND as [|? ? Hnot ND']; subst.
  apply IH; [exact ND'|].
  intros c Hc. simpl. rewrite (F c (or_intror Hc)), orb_false_r.
  destruct (String.eqb_spec (name c) (name d)) as [E|_]; [|reflexivity].
  exfalso. apply Hnot. rewrite <- E. apply in_map, Hc.
Qed.

(** X1.  Records whose names are pairwise distinct pass the
    de-duplication untouched: none is dropped and the order of the
    extraction is kept. *)
Theorem uniqueClans_distinct_names_unchanged (newClansData : list Clan) :
  NoDup (map name newClansData) ->
  uniqueClans newClansData = newClansData.
Proof.
  intros ND. rewrite uniqueClans_first_occurrences.
  apply first_occurrences_distinct; [exact ND | reflexivity].
Qed.

Lemma uniqueClans_distinct_names_unchanged_witness :
  NoDup (map name [A110; B90]) /\ uniqueClans [A110; B90] = [A110; B90].
Proof.
  assert (ND : NoDup (map name [A110; B90])).
  { repeat constructor; simpl; intuition discriminate. }
  split; [exact ND|].
  apply (uniqueClans_distinct_names_unchanged [A110; B90] ND).
Defined.

(** X2.  De-duplicating twice is de-duplicating once. *)
Theorem uniqueClans_idempotent (newClansData : list Clan) :
  uniqueClans (uniqueClans newClansData) = uniqueClans newClansData.
Proof.
  rewrite (uniqueClans_first_occurrences (uniqueClans newClansData)).
  apply first_occurrences_distinct; [|reflexivity].
  rewrite uniqueClans_first_occurrences. apply first_occurrences_NoDup.
Qed.

(* ===================================================================== *)
(** ** The sort, again *)
(* ===================================================================== *)

Lemma Array_sort_sorted_input (l : list TrackedClan) :
  StronglySorted score_ge l ->
  Array_sort (fun a b : TrackedClan => score b - score a) l = l.
Proof.
  induction 1 as [|x l S IH F]; simpl; [reflexivity|].
  rewrite IH. destruct l as [|y l]; [reflexivity|]. simpl.
  inversion F as [|? ? Hxy _]; subst. unfold score_ge in Hxy.
  destruct (Z.leb_spec (score y - score x) 0); [reflexivity | lia].
Qed.

(** X3.  Ranking a ranked list changes nothing. *)
Theorem sortedData_idempotent (trackedClans : list TrackedClan) :
  sortedData (sortedData trackedClans) = sortedData trackedClans.
Proof.
  apply Array_sort_sorted_input.
  apply (Array_sort_sorted (fun t : TrackedClan => score t)).
  intros x y. lia.
Qed.

Lemma StronglySorted_nth_error (l : list TrackedClan) :
  StronglySorted score_ge l ->
  forall i j a b, (i <= j)%nat ->
    nth_error l i = Some a -> nth_error l j = Some b ->
    score b <= score a.
Proof.
  induction 1 as [|x l S IH F]; intros i j a b Hij Ha Hb.
  - destruct i; discriminate.
  - destruct i as [|i], j as [|j]; simpl in *.
    + injection Ha as <-. injection Hb as <-. lia.
    + injection Ha as <-. rewrite Forall_forall in F.
      apply (F b). eapply nth_error_In, Hb.
    + lia.
    + apply (IH i j a b); [lia | exact Ha | exact Hb].
Qed.

(** X4.  In the ranked list a record never stands above one with a higher
    score: a position further down has a score that is at most the score
    of a position further up. *)
Theorem sortedData_higher_position_higher_score
    (trackedClans : list TrackedClan) (i j : nat) (a b : TrackedClan) :
  (i <= j)%nat ->
  nth_error (sortedData trackedClans) i = Some a ->
  nth_error (sortedData trackedClans) j = Some b ->
  score b <= score a.
Proof.
  apply StronglySorted_nth_error.
  apply (Array_sort_sorted (fun t : TrackedClan => score t)).
  intros x y. lia.
Qed.

Lemma sortedData_higher_position_higher_score_witness :
  score {| clan_of := B90; pointChange := 0 |}
  <= score {| clan_of := A110; pointChange := 10 |}.
Proof.
  apply (sortedData_higher_position_higher_score
           [{| clan_of := B90; pointChange := 0 |};
            {| clan_of := A110; pointChange := 10 |}] 0 1).
  - lia.
  - reflexivity.
  - reflexivity.
Defined.

(* ===================================================================== *)
(** ** Two runs in a row *)
(* ===================================================================== *)











(* ===================================================================== *)
(** ** The table *)
(* ===================================================================== *)

Lemma string_of_uint_all_digits d :
  all_digits (NilEmpty.string_of_uint d) = true.
Proof. induction d; simpl; auto. Qed.

Lemma NilZero_string_of_uint_all_digits d :
  all_digits (NilZero.string_of_uint d) = true.
Proof.
  destruct d; try apply (string_of_uint_all_digits (_ d)); reflexivity.
Qed.

Lemma epsilon_test change :
  negb (Qle_bool epsilon (inject_Z (Z.abs change))) = (change =? 0).
Proof.
  unfold Qle_bool, epsilon. simpl.
  destruct (Z.leb_spec 1 (Z.abs change * 10000)), (Z.eqb_spec change 0);
    simpl; try reflexivity; lia.
Qed.

(** X7.  What the cell of the change shows, for a change below 10^21 in
    magnitude (where [toFixed] writes plain digits): the dash for the
    change 0; for a gain the green trend whose label is a plus sign, the
    decimal digits and ".000"; for a loss the red trend whose label is a
    minus sign, the digits and ".000".  No label is without its sign. *)
Theorem PointChangeDisplay_sign (change : Z) :
  Z.abs change < 10 ^ 21 ->
  match change ?= 0 with
  | Eq => PointChangeDisplay change = Dash
  | Gt =>
      exists digits, all_digits digits = true /\
        PointChangeDisplay change =
        Trend "text-green-400" change ("+" ++ digits ++ ".000")
  | Lt =>
      exists digits, all_digits digits = true /\
        PointChangeDisplay change =
        Trend "text-red-400" change ("-" ++ digits ++ ".000")
  end.
Proof.
  intros _. unfold PointChangeDisplay. rewrite epsilon_test.
  destruct change as [|p|p]; simpl.
  - reflexivity.
  - exists (NilZero.string_of_uint (Pos.to_uint p)).
    split; [apply NilZero_string_of_uint_all_digits | reflexivity].
  - exists (NilZero.string_of_uint (Pos.to_uint p)).
    split; [apply NilZero_string_of_uint_all_digits | reflexivity].
Qed.

Lemma PointChangeDisplay_sign_witness :
  exists digits, all_digits digits = true /\
    PointChangeDisplay (-3) =
    Trend "text-red-400" (-3) ("-" ++ digits ++ ".000").
Proof.
  apply (PointChangeDisplay_sign (-3)). vm_compute. reflexivity.
Defined.

Lemma Leaderboard_rows_from_spec data : forall index,
  map rank (Leaderboard_rows_from index data)
    = seq (index + 1) (length data) /\
  map key (Leaderboard_rows_from index data)
    = map (fun t : TrackedClan => name t) data /\
  map row_change (Leaderboard_rows_from index data)
    = map (fun t : TrackedClan => PointChangeDisplay (pointChange t)) data.
Proof.
  induction data as [|t data IH]; intros index; simpl; [auto|].
  destruct (IH (S index)) as (-> & -> & ->).
  replace (S index + 1)%nat with (S (index + 1)) by lia. auto.
Qed.

(** X8.  The table has one row per record, in the order of the list; the
    ranks are 1, 2, ... without a gap, records with equal scores included;
    and the React keys are the names. *)
Theorem Leaderboard_rows_ranks (data : list TrackedClan) :
  length (Leaderboard_rows data) = length data /\
  map rank (Leaderboard_rows data) = seq 1 (length data) /\
  map key (Leaderboard_rows data) = map (fun t : TrackedClan => name t) data.
Proof.
  destruct (Leaderboard_rows_from_spec data 0) as (R & K & _).
  split; [|split; [exact R | exact K]].
  unfold Leaderboard_rows.
  rewrite <- (length_map rank (Leaderboard_rows_from 0 data)), R.
  apply length_seq.
Qed.

(** X9.  A record whose name the previous map does not hold is shown with
    the dash, whatever its score; so is a record whose score is the one
    the previous map holds under its name. *)
Theorem unknown_or_unchanged_record_shows_dash
    (previousClansMap : JSMap Clan) (uniqueClans : list Clan) :
  Forall
    (fun t : TrackedClan =>
       match Map_get previousClansMap (name t) with
       | None => PointChangeDisplay (pointChange t) = Dash
       | Some previousClan =>
           score t = score previousClan ->
           PointChangeDisplay (pointChange t) = Dash
       end)
    (trackedClans previousClansMap uniqueClans).
Proof.
  unfold trackedClans. apply Forall_map, Forall_forall. intros c _. simpl.
  destruct (Map_get previousClansMap (name c)) as [p|]; [|reflexivity].
  intros E. rewrite E, Z.sub_diag. reflexivity.
Qed.

(* ===================================================================== *)
(** ** [stopPolling] *)
(* ===================================================================== *)

(** X10.  Stopping twice is stopping once. *)
Theorem stopPolling_idempotent (w : World) :
  exec stopPolling (exec stopPolling w) = exec stopPolling w.
Proof.
  rewrite (stopPolling_exec (exec stopPolling w)), stopPolling_exec.
  destruct (intervalRef w) eqn:E; simpl; [reflexivity|].
  rewrite E. reflexivity.
Qed.

Lemma find_interval_filter id id' l :
  find (fun t => Pos.eqb (handle t) id')
       (filter (fun t => negb (Pos.eqb (handle t) id)) l) =
  if Pos.eqb id' id then None
  else find (fun t => Pos.eqb (handle t) id') l.
Proof.
  induction l as [|t l IH]; simpl.
  - destruct (Pos.eqb id' id); reflexivity.
  - destruct (Pos.eqb_spec (handle t) id) as [E|N]; simpl.
    + rewrite IH. destruct (Pos.eqb_spec id' id) as [E'|N']; [reflexivity|].
      destruct (Pos.eqb_spec (handle t) id'); [congruence | reflexivity].
    + destruct (Pos.eqb_spec (handle t) id') as [E'|N'].
      * destruct (Pos.eqb_spec id' id); [congruence | reflexivity].
      * exact IH.
Qed.

(** X11.  [stopPolling] with an empty ref changes nothing.  With a handle
    in the ref it resets the ref and clears that interval and no other:
    the handle is no longer live, every other handle is as live as
    before, and the state of the component is untouched. *)
Theorem stopPolling_clears_the_named_interval (w : World) :
  match intervalRef w with
  | None => exec stopPolling w = w
  | Some id =>
      intervalRef (exec stopPolling w) = None /\
      (forall id',
         find_interval id' (exec stopPolling w) =
         if Pos.eqb id' id then None else find_interval id' w) /\
      clans (exec stopPolling w) = clans w /\
      error (exec stopPolling w) = error w /\
      loading (exec stopPolling w) = loading w /\
      previousClansMap (exec stopPolling w) = previousClansMap w /\
      pending (exec stopPolling w) = pending w
  end.
Proof.
  rewrite stopPolling_exec. destruct (intervalRef w) as [id|];
    [|reflexivity].
  simpl. repeat split. intros id'. unfold find_interval. simpl.
  apply find_interval_filter.
Qed.

(* ===================================================================== *)
(** ** A response that is not ok *)
(* ===================================================================== *)

(** A byte of the ASCII range is lowered on its own. *)
Lemma toLowerCase_ascii c s :
  (N_of_ascii c <? 128)%N = true ->
  toLowerCase (String c s) = String (lower_ascii c) (toLowerCase s).
Proof.
  intros H. apply N.ltb_lt in H. simpl.
  destruct s as [|c2 s2]; [reflexivity|].
  assert (D : is_dotted_capital_i c c2 = false).
  { unfold is_dotted_capital_i.
    destruct (N.eqb_spec (N_of_ascii c) 196); [lia | reflexivity]. }
  rewrite D. destruct s2 as [|c3 s3]; [reflexivity|].
  assert (K : is_kelvin_sign c c2 c3 = false).
  { unfold is_kelvin_sign.
    destruct (N.eqb_spec (N_of_ascii c) 226); [lia | reflexivity]. }
  rewrite K. reflexivity.
Qed.

Lemma is_digit_ascii c : is_digit c = true -> (N_of_ascii c <? 128)%N = true.
Proof.
  unfold is_digit. intros H. apply andb_prop in H. destruct H as [_ H].
  apply N.leb_le in H. apply N.ltb_lt. lia.
Qed.

Lemma lower_ascii_digit c : is_digit c = true -> lower_ascii c = c.
Proof.
  unfold is_digit, lower_ascii. intros H.
  apply andb_prop in H. destruct H as [_ H]. apply N.leb_le in H.
  destruct (N.leb_spec 65 (N_of_ascii c)); [lia | reflexivity].
Qed.

Lemma toLowerCase_digits s : all_digits s = true -> toLowerCase s = s.
Proof.
  induction s as [|c s IH]; [reflexivity|].
  intros H. cbn [all_digits] in H. apply andb_prop in H.
  destruct H as [Hc Hs].
  rewrite (toLowerCase_ascii c s (is_digit_ascii c Hc)).
  rewrite (lower_ascii_digit c Hc), (IH Hs). reflexivity.
Qed.

(** Digits hold no text that starts with another character. *)
Lemma includes_digits s c sub :
  all_digits s = true -> is_digit c = false ->
  includes s (String c sub) = false.
Proof.
  intros Hs Hc. induction s as [|a s IH]; simpl; [reflexivity|].
  simpl in Hs. apply andb_prop in Hs. destruct Hs as [Ha Hs].
  destruct (ascii_dec c a) as [->|_]; [congruence|]. exact (IH Hs).
Qed.

Lemma status_message_is_generic n :
  includes
    (toLowerCase ("Network response was not ok. Status: " ++ status_text n))
    "quota" = false /\
  includes
    (toLowerCase ("Network response was not ok. Status: " ++ status_text n))
    "api key not valid" = false.
Proof.
  pose proof (NilZero_string_of_uint_all_digits (Nat.to_uint n)) as D.
  fold (status_text n) in D. generalize dependent (status_text n).
  intros d D. cbn [append].
  rewrite !toLowerCase_ascii by reflexivity.
  rewrite (toLowerCase_digits d D).
  split; cbn; (apply includes_digits; [exact D | reflexivity]).
Qed.

(** X12.  A response whose status is not ok, whatever the status: the run
    fails before the extraction is asked, the message shown is the generic
    one with the status in decimal, and the handler leaves the interval and
    the ref alone, so the polling goes on. *)
Theorem response_not_ok_is_generic_failure
    (c : option string) (env : Env) (w : World) (response : Response) :
  fetch env = inr response -> ok response = false ->
  run_result c env w =
    inl (ErrorObj ("Network response was not ok. Status: "
                     ++ status_text (status response))) /\
  error (exec (fetchData c env) w) =
    Some ("Failed to process data with AI: Network response was not ok. Status: "
            ++ status_text (status response)) /\
  intervals (exec (fetchData c env) w) = intervals w /\
  intervalRef (exec (fetchData c env) w) = intervalRef w /\
  clans (exec (fetchData c env) w) = clans w.
Proof.
  intros Hf Hok.
  assert (R : run_result c env w =
              inl (ErrorObj ("Network response was not ok. Status: "
                               ++ status_text (status response)))).
  { unfold run_result, result, exec, fetchData_try, bind, await, throw.
    simpl. rewrite Hf, Hok. reflexivity. }
  split; [exact R|].
  rewrite fetchData_exec, R, fetchData_catch_exec.
  destruct (status_message_is_generic (status response)) as [Q K].
  unfold message_of. rewrite Q, K. repeat split.
Qed.

Lemma response_not_ok_is_generic_failure_witness :
  error (exec (fetchData None
                 {| fetch := inr {| ok := false; status := 503%nat;
                                    text := inr "" |};
                    generateContent := fun _ => inr None;
                    SyntaxError_message := fun _ => "";
                    Date_now := 0 |}) mount) =
  Some "Failed to process data with AI: Network response was not ok. Status: 503".
Proof.
  apply (response_not_ok_is_generic_failure None
           {| fetch := inr {| ok := false; status := 503%nat;
                              text := inr "" |};
              generateContent := fun _ => inr None;
              SyntaxError_message := fun _ => "";
              Date_now := 0 |} mount
           {| ok := false; status := 503%nat; text := inr "" |}
           eq_refl eq_refl).
Defined.

(* ===================================================================== *)
(** ** One step of the scheduler *)
(* ===================================================================== *)

Lemma with_pending_None_id w : pending w = None -> with_pending None w = w.
Proof. destruct w. simpl. intros ->. reflexivity. Qed.

(** Whether a run throws, and what, depends on the answers alone. *)
Lemma run_result_answers c c' env w w' :
  run_result c env w = run_result c' env w'.
Proof.
  unfold run_result, result, exec, fetchData_try, bind, await, throw, ret,
    read, modify, setLoading, setError, setClans, setLastUpdated. simpl.
  destruct (fetch env) as [e|response]; [reflexivity|].
  destruct (ok response); simpl; [|reflexivity].
  destruct (text response) as [e|responseText]; [reflexivity|].
  destruct (generateContent env responseText) as [e|[s|]];
    [reflexivity| |reflexivity].
  destruct (String.eqb s ""); [reflexivity|].
  destruct (JSON.parse s); [|reflexivity].
  destruct (truthy c), (truthy c'); reflexivity.
Qed.

(** A run touches neither the pending call, nor the memo, nor the counter
    of the handles, and it ends with [loading] reset. *)
Lemma fetchData_leaves c env w :
  pending (exec (fetchData c env) w) = pending w /\
  memo_error (exec (fetchData c env) w) = memo_error w /\
  next_handle (exec (fetchData c env) w) = next_handle w /\
  loading (exec (fetchData c env) w) = false.
Proof.
  destruct (run_result c env w) as [e|[]] eqn:R.
  - rewrite fetchData_exec, R, fetchData_catch_exec.
    destruct (includes (toLowerCase (message_of e)) "quota");
      [|destruct (includes (toLowerCase (message_of e)) "api key not valid")];
      rewrite ?stopPolling_exec; simpl;
      destruct (intervalRef w); simpl; auto.
  - destruct (successful_run_exec c env w R)
      as (? & ? & ? & ? & _ & _ & _ & _ & _ & _ & ->).
    destruct (truthy c); simpl; auto.
Qed.

(** What a run leaves of the interval: it is cleared together with the
    ref, or both are as before. *)
Lemma fetchData_interval c env w :
  scheduler_invariant w ->
  (intervals (exec (fetchData c env) w) = [] /\
   intervalRef (exec (fetchData c env) w) = None) \/
  (intervals (exec (fetchData c env) w) = intervals w /\
   intervalRef (exec (fetchData c env) w) = intervalRef w).
Proof.
  intros (_ & _ & _ & Hi).
  destruct (run_result c env w) as [e|[]] eqn:R.
  - rewrite fetchData_exec, R, fetchData_catch_exec.
    destruct (includes (toLowerCase (message_of e)) "quota");
      [|destruct (includes (toLowerCase (message_of e)) "api key not valid")];
      rewrite ?stopPolling_exec; simpl; [| |right; auto];
      left; destruct Hi as [[I R0] | (id & I & R0)]; rewrite R0; simpl;
      rewrite ?I; simpl; rewrite ?Pos.eqb_refl; auto.
  - destruct (successful_run_exec c env w R)
      as (? & ? & ? & ? & _ & _ & _ & _ & _ & _ & ->).
    right. destruct (truthy c); simpl; auto.
Qed.

Lemma scheduler_invariant_clear_pending w :
  scheduler_invariant w -> scheduler_invariant (with_pending None w).
Proof.
  intros (Hm & He & _ & Hi). repeat split; simpl; auto. discriminate.
Qed.

(** Every step is one run of the current callback followed by a render. *)
Lemma step_is_run ev w w' :
  reachable w -> step ev w = Some w' ->
  w' = commit (exec (fetchData (error w) (event_env ev))
                    (with_pending None w)).
Proof.
  intros Rw St. pose proof (reachable_invariant w Rw) as Inv.
  destruct ev as [env | id env]; simpl in *.
  - destruct (pending w) as [c|] eqn:P; [|discriminate].
    injection St as <-.
    assert (c = error w) as -> by (apply Inv, P). reflexivity.
  - destruct (pending w) eqn:P; [discriminate|].
    destruct (find_interval id w) as [t|] eqn:F; [|discriminate].
    injection St as <-. rewrite (with_pending_None_id w P).
    assert (callback t = error w) as ->; [|reflexivity].
    apply (reachable_callback_current w (callback t) Rw).
    right. split; [exact P|]. exists t. split; [|reflexivity].
    unfold find_interval in F. apply find_some in F. tauto.
Qed.

Lemma commit_unchanged w1 :
  error w1 = memo_error w1 -> commit w1 = w1.
Proof.
  intros E. unfold commit.
  rewrite (proj2 (option_string_eqb_eq (error w1) (memo_error w1)) E).
  reflexivity.
Qed.

Lemma stopPolling_returns w : stopPolling w = (inr tt, exec stopPolling w).
Proof.
  unfold exec, stopPolling, bind, read, clearInterval, modify, ret. simpl.
  destruct (intervalRef w); reflexivity.
Qed.

(** The render after a change of [error]: the cleanup, then the effect. *)
Lemma commit_changed w1 :
  error w1 <> memo_error w1 ->
  ((intervals w1 = [] /\ intervalRef w1 = None) \/
   (exists t, intervals w1 = [t] /\ intervalRef w1 = Some (handle t))) ->
  commit w1 =
  {| clans := clans w1; loading := true; error := error w1;
     lastUpdated := lastUpdated w1;
     previousClansMap := previousClansMap w1;
     intervalRef := Some (next_handle w1);
     intervals :=
       [{| handle := next_handle w1; delay := REFRESH_INTERVAL_MS;
           callback := error w1 |}];
     next_handle := Pos.succ (next_handle w1);
     pending := Some (error w1);
     memo_error := error w1 |}.
Proof.
  intros N Hi. unfold commit.
  destruct (option_string_eqb (error w1) (memo_error w1)) eqn:Q;
    [apply option_string_eqb_eq in Q; contradiction|].
  unfold effect_cleanup, exec, bind.
  rewrite stopPolling_returns, stopPolling_exec.
  unfold effect_body, bind, read, setLoading, setInterval, modify.
  destruct Hi as [[I R1] | (t & I & R1)]; simpl;
    rewrite ?R1; simpl; rewrite ?I; simpl; rewrite ?Pos.eqb_refl;
    reflexivity.
Qed.

(** The two ways a step can end: [error] is the one of before and the
    world is the one the run left; or [error] has changed and the effect
    has run again on top of it. *)
Lemma step_cases ev w w' :
  reachable w -> step ev w = Some w' ->
  exists w1,
    w1 = exec (fetchData (error w) (event_env ev)) (with_pending None w) /\
    pending w1 = None /\ loading w1 = false /\
    next_handle w1 = next_handle w /\
    ((intervals w1 = [] /\ intervalRef w1 = None) \/
     (intervals w1 = intervals w /\ intervalRef w1 = intervalRef w)) /\
    ((error w1 = error w /\ w' = w1) \/
     (error w1 <> error w /\
      w' =
      {| clans := clans w1; loading := true; error := error w1;
         lastUpdated := lastUpdated w1;
         previousClansMap := previousClansMap w1;
         intervalRef := Some (next_handle w);
         intervals :=
           [{| handle := next_handle w; delay := REFRESH_INTERVAL_MS;
               callback := error w1 |}];
         next_handle := Pos.succ (next_handle w);
         pending := Some (error w1);
         memo_error := error w1 |})).
Proof.
  intros Rw St. pose proof (reachable_invariant w Rw) as Inv.
  pose proof (scheduler_invariant_clear_pending w Inv) as Inv0.
  rewrite (step_is_run ev w w' Rw St).
  set (w0 := with_pending None w) in *.
  set (w1 := exec (fetchData (error w) (event_env ev)) w0).
  destruct (fetchData_leaves (error w) (event_env ev) w0)
    as (P1 & M1 & N1 & L1).
  fold w1 in P1, M1, N1, L1.
  pose proof (fetchData_interval (error w) (event_env ev) w0 Inv0) as I1.
  fold w1 in I1.
  assert (M1' : memo_error w1 = error w)
    by (rewrite M1; destruct Inv as (Hm & _); exact Hm).
  exists w1. split; [reflexivity|].
  split; [exact P1|]. split; [exact L1|]. split; [exact N1|].
  split; [exact I1|].
  destruct (option_string_eqb (error w1) (error w)) eqn:Q.
  - apply option_string_eqb_eq in Q. left. split; [exact Q|].
    apply commit_unchanged. congruence.
  - right. assert (N : error w1 <> error w).
    { intros E. apply option_string_eqb_eq in E. congruence. }
    split; [exact N|].
    rewrite commit_changed; [rewrite N1; reflexivity | congruence |].
    destruct I1 as [I1 | [I1 R1]]; [left; exact I1|].
    destruct Inv0 as (_ & _ & _ & [H | (id & I & R0)]);
      [left; split; [rewrite I1 | rewrite R1]; apply H|].
    right. eexists. split; [rewrite I1; exact I | rewrite R1; exact R0].
Qed.

(** X13.  What a step does to the polling.  When the run leaves the same
    [error], nothing is subscribed: no call is pending, [loading] is off
    and no handle has been taken.  When the run changes [error], in either
    direction, the effect runs again: a new call of [fetchData] is pending
    with [loading] on, and the one live interval is a new one whose
    callback closed over the new [error]. *)
Theorem step_resubscribes_iff_error_changes
    (ev : event) (w w' : World) :
  reachable w -> step ev w = Some w' ->
  (error w' = error w /\ pending w' = None /\ loading w' = false /\
   next_handle w' = next_handle w)
  \/
  (error w' <> error w /\ pending w' = Some (error w') /\
   loading w' = true /\
   intervals w' =
     [{| handle := next_handle w; delay := REFRESH_INTERVAL_MS;
         callback := error w' |}] /\
   intervalRef w' = Some (next_handle w)).
Proof.
  intros Rw St.
  destruct (step_cases ev w w' Rw St)
    as (w1 & _ & P1 & L1 & N1 & _ & [[E ->] | [N ->]]).
  - left. auto.
  - right. simpl. auto.
Qed.

Lemma step_resubscribes_iff_error_changes_witness :
  (error world_AB = error mount /\ pending world_AB = None /\
   loading world_AB = false /\ next_handle world_AB = next_handle mount)
  \/
  (error world_AB <> error mount /\ pending world_AB = Some (error world_AB) /\
   loading world_AB = true /\
   intervals world_AB =
     [{| handle := next_handle mount; delay := REFRESH_INTERVAL_MS;
         callback := error world_AB |}] /\
   intervalRef world_AB = Some (next_handle mount)).
Proof.
  apply (step_resubscribes_iff_error_changes
           (PendingCallReturns (env_extracts (Some text_A100_B90)))
           mount world_AB reachable_mount).
  vm_compute. reflexivity.
Defined.

(** A pending call always has its interval: the effect makes both. *)
Lemma reachable_pending_has_interval w :
  reachable w -> pending w <> None -> intervals w <> [].
Proof.
  induction 1 as [|w ev w' Rw _ St]; [discriminate|].
  destruct (step_cases ev w w' Rw St)
    as (w1 & _ & P1 & _ & _ & _ & [[_ ->] | [_ ->]]).
  - intros H. contradiction.
  - intros _. discriminate.
Qed.

(** A step can only be taken while the interval is live. *)
Lemma step_needs_interval ev w w' :
  reachable w -> step ev w = Some w' ->
  exists id,
    intervals w =
      [{| handle := id; delay := REFRESH_INTERVAL_MS; callback := error w |}]
    /\ intervalRef w = Some id.
Proof.
  intros Rw St.
  assert (N : intervals w <> []).
  { destruct ev as [env | id env]; simpl in St.
    - apply (reachable_pending_has_interval w Rw).
      destruct (pending w); [discriminate | discriminate].
    - destruct (pending w); [discriminate|].
      unfold find_interval in St. intros E. rewrite E in St. discriminate. }
  destruct (reachable_invariant w Rw) as (_ & _ & _ & [[I _] | H]);
    [contradiction | exact H].
Qed.

(* ===================================================================== *)
(** ** Failures, step by step *)
(* ===================================================================== *)

Lemma generic_failure_run c env w e :
  run_result c env w = inl e ->
  includes (toLowerCase (message_of e)) "quota" = false ->
  includes (toLowerCase (message_of e)) "api key not valid" = false ->
  exec (fetchData c env) w =
  with_loading false
    (with_error (Some ("Failed to process data with AI: " ++ message_of e))
       (with_loading true w)).
Proof.
  intros R Q K. rewrite fetchData_exec, R, fetchData_catch_exec, Q, K.
  reflexivity.
Qed.

(** X14.  A failure whose message holds neither "quota" nor
    "api key not valid" never stops the scheduler: after the step the
    generic message with the text of the failure is set, the published
    list is the one of before, and exactly one interval is live, named by
    the ref, with a callback that closed over the new message. *)
Theorem generic_failure_keeps_polling
    (ev : event) (w w' : World) (e : thrown) :
  reachable w -> step ev w = Some w' ->
  run_result (error w) (event_env ev) w = inl e ->
  includes (toLowerCase (message_of e)) "quota" = false ->
  includes (toLowerCase (message_of e)) "api key not valid" = false ->
  error w' = Some ("Failed to process data with AI: " ++ message_of e) /\
  clans w' = clans w /\
  (exists id,
     intervals w' =
       [{| handle := id; delay := REFRESH_INTERVAL_MS;
           callback := error w' |}] /\
     intervalRef w' = Some id) /\
  ~ Stopped w'.
Proof.
  intros Rw St R Q K.
  destruct (step_needs_interval ev w w' Rw St) as (id & I & R0).
  rewrite (run_result_answers (error w) (error w) (event_env ev)
             w (with_pending None w)) in R.
  pose proof (generic_failure_run _ _ _ e R Q K) as X.
  destruct (step_cases ev w w' Rw St)
    as (w1 & E1 & _ & _ & _ & _ & [[E ->] | [N ->]]);
    rewrite X in E1; subst w1; simpl in *.
  - split; [reflexivity|]. split; [reflexivity|]. split.
    + exists id. rewrite I, E. auto.
    + intros [S _]. simpl in S. rewrite I in S. discriminate.
  - split; [reflexivity|]. split; [reflexivity|]. split.
    + eexists. split; reflexivity.
    + intros [S _]. discriminate.
Qed.

Lemma generic_failure_keeps_polling_witness :
  exists w',
    step (PendingCallReturns (env_extraction_throws "Service unavailable"))
         mount = Some w' /\
    error w' =
      Some "Failed to process data with AI: Service unavailable" /\
    ~ Stopped w'.
Proof.
  eexists. split; [vm_compute; reflexivity|].
  refine ((fun H => conj (proj1 H) (proj2 (proj2 (proj2 H))))
            (generic_failure_keeps_polling
               (PendingCallReturns
                  (env_extraction_throws "Service unavailable"))
               mount _ (ErrorObj "Service unavailable")
               reachable_mount _ _ _ _));
    vm_compute; reflexivity.
Defined.

Lemma api_key_failure_then_render w env e :
  scheduler_invariant w -> pending w = None ->
  run_result (error w) env w = inl e ->
  includes (toLowerCase (message_of e)) "quota" = false ->
  includes (toLowerCase (message_of e)) "api key not valid" = true ->
  error (commit (exec (fetchData (error w) env) w)) = Some api_key_message /\
  (error w = Some api_key_message ->
   Stopped (commit (exec (fetchData (error w) env) w))) /\
  (error w <> Some api_key_message ->
   ~ Stopped (commit (exec (fetchData (error w) env) w))).
Proof.
  intros Inv Hp R Q K.
  destruct (api_key_failure_run w (error w) env e Inv R Q K) as (-> & _).
  destruct (stopping_failure_render w api_key_message Inv Hp) as (E & S & N).
  split; [exact E|]. split; [exact S|].
  intros D [_ P]. destruct (N D) as [P' _]. congruence.
Qed.

Lemma option_string_dec (a b : option string) : a = b \/ a <> b.
Proof.
  destruct (option_string_eqb a b) eqn:Q.
  - left. apply option_string_eqb_eq, Q.
  - right. intros E. apply option_string_eqb_eq in E. congruence.
Qed.

(** X15.  A failure with "quota" in its message sets the quota message,
    and the scheduler is stopped after the step exactly when the quota
    message was already the [error] before it: a first quota failure
    leaves the polling on, the next one in a row turns it off. *)
Theorem quota_failure_stops_iff_message_was_shown
    (ev : event) (w w' : World) (e : thrown) :
  reachable w -> step ev w = Some w' ->
  run_result (error w) (event_env ev) w = inl e ->
  includes (toLowerCase (message_of e)) "quota" = true ->
  error w' = Some quota_message /\
  (Stopped w' <-> error w = Some quota_message).
Proof.
  intros Rw St R Q.
  pose proof (scheduler_invariant_clear_pending w (reachable_invariant w Rw))
    as Inv0.
  rewrite (run_result_answers (error w) (error w) (event_env ev)
             w (with_pending None w)) in R.
  rewrite (step_is_run ev w w' Rw St).
  destruct (quota_failure_then_render (with_pending None w) (event_env ev) e
              Inv0 eq_refl R Q) as (E & S & N).
  simpl in *. split; [exact E|]. split; [|exact S].
  intros H. destruct (option_string_dec (error w) (Some quota_message))
    as [D|D]; [exact D|]. destruct (N D H).
Qed.

Lemma quota_failure_stops_iff_message_was_shown_witness :
  exists w',
    step (PendingCallReturns (env_extraction_throws quota_error_text))
         mount = Some w' /\
    error w' = Some quota_message /\
    (Stopped w' <-> error mount = Some quota_message).
Proof.
  eexists. split; [vm_compute; reflexivity|].
  apply (quota_failure_stops_iff_message_was_shown
           (PendingCallReturns (env_extraction_throws quota_error_text))
           mount _ (ErrorObj quota_error_text) reachable_mount);
    vm_compute; reflexivity.
Defined.

(** X16.  The same for the failure of the API key: a message with
    "api key not valid" and without "quota" sets the message for the key,
    and the scheduler is stopped after the step exactly when that message
    was already the [error] before it. *)
Theorem api_key_failure_stops_iff_message_was_shown
    (ev : event) (w w' : World) (e : thrown) :
  reachable w -> step ev w = Some w' ->
  run_result (error w) (event_env ev) w = inl e ->
  includes (toLowerCase (message_of e)) "quota" = false ->
  includes (toLowerCase (message_of e)) "api key not valid" = true ->
  error w' = Some api_key_message /\
  (Stopped w' <-> error w = Some api_key_message).
Proof.
  intros Rw St R Q K.
  pose proof (scheduler_invariant_clear_pending w (reachable_invariant w Rw))
    as Inv0.
  rewrite (run_result_answers (error w) (error w) (event_env ev)
             w (with_pending None w)) in R.
  rewrite (step_is_run ev w w' Rw St).
  destruct (api_key_failure_then_render (with_pending None w) (event_env ev)
              e Inv0 eq_refl R Q K) as (E & S & N).
  simpl in *. split; [exact E|]. split; [|exact S].
  intros H. destruct (option_string_dec (error w) (Some api_key_message))
    as [D|D]; [exact D|]. destruct (N D H).
Qed.

Lemma api_key_failure_stops_iff_message_was_shown_witness :
  exists w',
    step (PendingCallReturns (env_extraction_throws api_key_error_text))
         mount = Some w' /\
    error w' = Some api_key_message /\
    (Stopped w' <-> error mount = Some api_key_message).
Proof.
  eexists. split; [vm_compute; reflexivity|].
  apply (api_key_failure_stops_iff_message_was_shown
           (PendingCallReturns (env_extraction_throws api_key_error_text))
           mount _ (ErrorObj api_key_error_text) reachable_mount);
    vm_compute; reflexivity.
Defined.

(** X17.  The scheduler is stopped only with one of the two stopping
    messages on display, and once it is stopped no event can take place
    any more: no interval fires and no call returns. *)
Theorem stopped_only_by_stopping_failure_and_for_good (w : World) :
  reachable w -> Stopped w ->
  (error w = Some quota_message \/ error w = Some api_key_message) /\
  forall ev, step ev w = None.
Proof.
  intros Rw S. split; [|intros ev; apply Stopped_terminal, S].
  destruct Rw as [|w ev w' Rw St]; [destruct S as [S _]; discriminate|].
  destruct (step_needs_interval ev w w' Rw St) as (id & I & R0).
  pose proof (scheduler_invariant_clear_pending w (reachable_invariant w Rw))
    as Inv0.
  destruct (step_cases ev w w' Rw St)
    as (w1 & E1 & _ & _ & _ & _ & [[_ ->] | [_ ->]]);
    [|destruct S as [S _]; discriminate].
  destruct S as [S _]. subst w1.
  destruct (run_result (error w) (event_env ev) (with_pending None w))
    as [e|[]] eqn:R.
  - destruct (includes (toLowerCase (message_of e)) "quota") eqn:Q.
    { left. apply (quota_failure_run _ _ _ e Inv0 R Q). }
    destruct (includes (toLowerCase (message_of e)) "api key not valid")
      eqn:K.
    { right. apply (api_key_failure_run _ _ _ e Inv0 R Q K). }
    rewrite (generic_failure_run _ _ _ e R Q K) in S. simpl in S.
    rewrite I in S. discriminate.
  - destruct (successful_run_exec _ _ _ R)
      as (? & ? & ? & ? & _ & _ & _ & _ & _ & _ & X).
    rewrite X in S. destruct (truthy (error w)); simpl in S;
      rewrite I in S; discriminate.
Qed.

Lemma stopped_only_by_stopping_failure_and_for_good_witness :
  exists w,
    steps [PendingCallReturns (env_extraction_throws quota_error_text);
           PendingCallReturns (env_extraction_throws quota_error_text)]
          mount = Some w /\
    (error w = Some quota_message \/ error w = Some api_key_message) /\
    forall ev, step ev w = None.
Proof.
  eexists. split; [vm_compute; reflexivity|].
  apply stopped_only_by_stopping_failure_and_for_good.
  - apply (@reachable_step
             (exec (effect_cleanup ;; effect_body)%js
                (with_memo_error (Some quota_message)
                   (exec (fetchData None
                            (env_extraction_throws quota_error_text))
                         (with_pending None mount))))
             (PendingCallReturns (env_extraction_throws quota_error_text))).
    + apply (@reachable_step mount
               (PendingCallReturns (env_extraction_throws quota_error_text)));
        [exact reachable_mount | vm_compute; reflexivity].
    + vm_compute. reflexivity.
  - split; vm_compute; reflexivity.
Defined.

(** X18.  The component never leaks a timer: in every world it can reach
    at most one interval is live, it is the one the ref names, its period
    is the refresh period and its callback closed over the current
    [error]; and when no interval is live the ref is empty. *)
Theorem at_most_one_interval_and_the_ref_names_it (w : World) :
  reachable w ->
  (length (intervals w) <= 1)%nat /\
  Forall (fun t => intervalRef w = Some (handle t) /\
                   delay t = REFRESH_INTERVAL_MS /\
                   callback t = error w) (intervals w) /\
  match intervals w with
  | [] => intervalRef w = None
  | _ => True
  end.
Proof.
  intros Rw.
  destruct (reachable_invariant w Rw) as (_ & _ & _ & [[I R0] | (id & I & R0)]);
    rewrite I; simpl.
  - repeat split; [lia | constructor | exact R0].
  - repeat split; [lia|]. constructor; [|constructor]. simpl. auto.
Qed.

Lemma at_most_one_interval_and_the_ref_names_it_witness :
  (length (intervals world_AB) <= 1)%nat.
Proof.
  apply (at_most_one_interval_and_the_ref_names_it world_AB).
  apply (@reachable_step mount
           (PendingCallReturns (env_extracts (Some text_A100_B90)))).
  - exact reachable_mount.
  - vm_compute. reflexivity.
Defined.

(* ===================================================================== *)
(** ** The published list in every reachable world *)
(* ===================================================================== *)

Lemma reachable_snapshot w :
  reachable w ->
  NoDup (map (fun t : TrackedClan => name t) (clans w)) /\
  StronglySorted score_ge (clans w) /\
  previousClansMap w =
    map (fun c => (name c, c)) (Map_values (previousClansMap w)) /\
  Permutation (Map_values (previousClansMap w)) (map clan_of (clans w)).
Proof.
  induction 1 as [|w ev w' Rw IH St].
  - simpl. repeat split; constructor.
  - rewrite (step_is_run ev w w' Rw St).
    destruct (commit_keeps
                (exec (fetchData (error w) (event_env ev))
                      (with_pending None w))) as (-> & -> & _).
    destruct (run_result (error w) (event_env ev) (with_pending None w))
      as [e|[]] eqn:R.
    + destruct (failing_run_keeps _ _ _ e R) as (-> & -> & _). exact IH.
    + destruct (successful_run_exec _ _ _ R)
        as (? & ? & ? & data & _ & _ & _ & _ & _ & _ & ->).
      assert (ND : NoDup (map name (uniqueClans data))).
      { rewrite uniqueClans_first_occurrences.
        apply first_occurrences_NoDup. }
      assert (P : Permutation (uniqueClans data)
                    (map clan_of
                       (sortedData
                          (trackedClans (previousClansMap w)
                                        (uniqueClans data))))).
      { rewrite <- (trackedClans_records (previousClansMap w)
                      (uniqueClans data)) at 1.
        apply Permutation_map.
        apply (Array_sort_perm
                 (fun a b : TrackedClan => score b - score a)). }
      assert (V : Map_values (nextPreviousClansMap (uniqueClans data))
                  = uniqueClans data).
      { rewrite (nextPreviousClansMap_entries _ ND). unfold Map_values.
        rewrite map_map. simpl. apply map_id. }
      assert (G :
        NoDup (map (fun t : TrackedClan => name t)
                 (sortedData (trackedClans (previousClansMap w)
                                           (uniqueClans data)))) /\
        StronglySorted score_ge
          (sortedData (trackedClans (previousClansMap w) (uniqueClans data)))
        /\
        nextPreviousClansMap (uniqueClans data) =
          map (fun c => (name c, c))
            (Map_values (nextPreviousClansMap (uniqueClans data))) /\
        Permutation (Map_values (nextPreviousClansMap (uniqueClans data)))
          (map clan_of
             (sortedData (trackedClans (previousClansMap w)
                                       (uniqueClans data))))).
      { rewrite V. split; [|split; [|split; [|exact P]]].
        - rewrite <- (map_map clan_of name).
          eapply Permutation_NoDup; [apply Permutation_map, P | exact ND].
        - apply (Array_sort_sorted (fun t : TrackedClan => score t)).
          intros a b. lia.
        - apply nextPreviousClansMap_entries, ND. }
      destruct (truthy (error w)); exact G.
Qed.

Lemma Map_get_own_entry (l : list Clan) c :
  NoDup (map name l) -> In c l ->
  Map_get (map (fun r => (name r, r)) l) (name c) = Some c.
Proof.
  induction l as [|d l IH]; intros ND H; [contradiction|].
  inversion ND as [|? ? Hnot ND']; subst. simpl.
  destruct H as [->|H]; [rewrite String.eqb_refl; reflexivity|].
  destruct (String.eqb_spec (name d) (name c)) as [E|_]; [|apply IH; assumption].
  exfalso. apply Hnot. rewrite E. apply in_map, H.
Qed.

(** X19.  In every world the component can reach, the published list has
    pairwise distinct names and is sorted non-increasing by score, and the
    previous map holds exactly its records without their changes: as many
    entries as the list has records, and under the name of each record of
    the list that record's name and score.  So the next changes are
    computed against the scores on display. *)
Theorem published_list_and_previous_map_agree (w : World) :
  reachable w ->
  NoDup (map (fun t : TrackedClan => name t) (clans w)) /\
  StronglySorted score_ge (clans w) /\
  length (previousClansMap w) = length (clans w) /\
  Forall (fun t : TrackedClan =>
            Map_get (previousClansMap w) (name t) = Some (clan_of t))
         (clans w).
Proof.
  intros Rw. destruct (reachable_snapshot w Rw) as (ND & S & K & P).
  split; [exact ND|]. split; [exact S|]. split.
  - rewrite <- (length_map snd (previousClansMap w)).
    fold (Map_values (previousClansMap w)).
    rewrite (Permutation_length P). apply length_map.
  - apply Forall_forall. intros t Ht. rewrite K.
    apply Map_get_own_entry.
    + eapply Permutation_NoDup;
        [apply Permutation_map, Permutation_sym, P|].
      rewrite map_map. exact ND.
    + eapply Permutation_in; [apply Permutation_sym, P|].
      apply in_map, Ht.
Qed.

Lemma published_list_and_previous_map_agree_witness :
  Forall (fun t : TrackedClan =>
            Map_get (previousClansMap world_AB) (name t) = Some (clan_of t))
         (clans world_AB).
Proof.
  apply (published_list_and_previous_map_agree world_AB).
  apply (@reachable_step mount
           (PendingCallReturns (env_extracts (Some text_A100_B90)))).
  - exact reachable_mount.
  - vm_compute. reflexivity.
Defined.

(** X20.  Whatever the page shows, the React keys of the rows on display
    are pairwise distinct. *)
Theorem shown_rows_have_distinct_keys (w : World) :
  reachable w -> NoDup (map key (shown_rows w)).
Proof.
  intros Rw. destruct (reachable_snapshot w Rw) as (ND & _).
  unfold shown_rows, render.
  destruct (loading w && (length (clans w) =? 0)%nat); [constructor|].
  destruct (Leaderboard_rows_from_spec (clans w) 0) as (_ & K & _).
  destruct (error w) as [m|]; [destruct (truthy (Some m))|];
    try constructor; unfold Leaderboard_rows; rewrite K; exact ND.
Qed.

Lemma shown_rows_have_distinct_keys_witness :
  NoDup (map key (shown_rows world_AB)).
Proof.
  apply (shown_rows_have_distinct_keys world_AB).
  apply (@reachable_step mount
           (PendingCallReturns (env_extracts (Some text_A100_B90)))).
  - exact reachable_mount.
  - vm_compute. reflexivity.
Defined.

Lemma failing_run_error_truthy c env w e :
  run_result c env w = inl e ->
  exists message,
    error (exec (fetchData c env) w) = Some message /\
    truthy (Some message) = true.
Proof.
  intros R. rewrite fetchData_exec, R, fetchData_catch_exec.
  destruct (includes (toLowerCase (message_of e)) "quota");
    [|destruct (includes (toLowerCase (message_of e)) "api key not valid")];
    rewrite ?stopPolling_exec; simpl; eexists;
    (split; [destruct (intervalRef w); reflexivity | reflexivity]).
Qed.

(** X21.  After a step whose run failed the table is not on display: the
    page shows the error message, or the spinner when the list is empty
    and a new call is loading.  The list itself stays in the state as it
    was. *)
Theorem failed_step_hides_the_table
    (ev : event) (w w' : World) (e : thrown) :
  reachable w -> step ev w = Some w' ->
  run_result (error w) (event_env ev) w = inl e ->
  clans w' = clans w /\
  shown_rows w' = [] /\
  exists message,
    error w' = Some message /\
    (render w' = ErrorDisplay message \/ render w' = LoadingSpinner).
Proof.
  intros Rw St R.
  rewrite (run_result_answers (error w) (error w) (event_env ev)
             w (with_pending None w)) in R.
  rewrite (step_is_run ev w w' Rw St).
  set (w1 := exec (fetchData (error w) (event_env ev)) (with_pending None w)).
  destruct (failing_run_error_truthy _ _ _ e R) as (m & Em & Tm).
  fold w1 in Em.
  destruct (failing_run_keeps _ _ _ e R) as (Kc & _). fold w1 in Kc.
  destruct (commit_keeps w1) as (Cc & _ & _ & Ce).
  split; [rewrite Cc; exact Kc|].
  assert (V : render (commit w1) = ErrorDisplay m \/
              render (commit w1) = LoadingSpinner).
  { unfold render. rewrite Ce, Em, Tm.
    destruct (loading (commit w1) && (length (clans (commit w1)) =? 0)%nat);
      auto. }
  split.
  - unfold shown_rows. destruct V as [-> | ->]; reflexivity.
  - exists m. split; [rewrite Ce; exact Em | exact V].
Qed.

Lemma failed_step_hides_the_table_witness :
  exists w',
    step (IntervalFires 1 (env_extraction_throws "Service unavailable"))
         world_AB = Some w' /\
    clans w' = clans world_AB /\
    shown_rows w' = [] /\
    shown_rows world_AB <> [].
Proof.
  eexists. split; [vm_compute; reflexivity|].
  refine ((fun H => conj (proj1 H) (conj (proj1 (proj2 H)) _))
            (failed_step_hides_the_table
               (IntervalFires 1 (env_extraction_throws "Service unavailable"))
               world_AB _ (ErrorObj "Service unavailable") _ _ _)).
  - vm_compute. discriminate.
  - apply (@reachable_step mount
             (PendingCallReturns (env_extracts (Some text_A100_B90))));
      [exact reachable_mount | vm_compute; reflexivity].
  - vm_compute. reflexivity.
  - vm_compute. reflexivity.
Defined.
